(** * dynaglue: update-expression compiler, mapping sessions, transactions

    A shallow embedding of the update path of the library
    ([operations/update_by_id.ts], [base/mappers.ts]) and of the
    transaction coordinator described in the design document, together
    with the properties stated about them.

    Conventions.
    - A JavaScript object used as a dictionary, and a JavaScript [Map], are
      association lists in enumeration (insertion) order with unique keys.
    - A function that can [throw] returns a [result].
    - Mutable closures ([currentIndex], the backing maps) are explicit
      records threaded through the calls.
    - Functions imported from modules that are not part of the sources at
      hand ([findMatchingPath], [assembleIndexedValue], [invertMap],
      [isSafeAttributeName]) and library functions (lodash [get],
      [Converter.input], [String.prototype.trim]) are the fields of the
      class [Externals]; the compiler is verified for every instance. *)

From Stdlib Require Import Ascii String.
From stdpp Require Import base strings list gmap pretty.

Local Open Scope string_scope.
Local Open Scope list_scope.

(** ** JavaScript values, objects and maps *)

(** The values an update document can carry ([any] in the source). Arrays
    and functions are not needed by the properties below. *)
#[warnings="-register-all"]
Inductive JsValue : Type :=
| JUndefined
| JNull
| JBool (b : bool)
| JNumber (n : Z)
| JString (s : string)
| JObject (fields : list (string * JsValue)).

(** [typeof v === 'undefined'] *)
Definition is_undefined (v : JsValue) : bool :=
  match v with JUndefined => true | _ => false end.

(** [Map.prototype.get] on an insertion-ordered map. *)
Fixpoint Map_get {V : Type} (m : list (string * V)) (k : string) : option V :=
  match m with
  | [] => None
  | (k', v) :: m' => if decide (k' = k) then Some v else Map_get m' k
  end.

(** [Map.prototype.set]: an existing key keeps its position, a new key goes
    last. The same function models [obj[key] = value] on an object whose
    keys are not array indices. *)
Fixpoint Map_set {V : Type} (m : list (string * V)) (k : string) (v : V)
  : list (string * V) :=
  match m with
  | [] => [(k, v)]
  | (k', v') :: m' =>
      if decide (k' = k) then (k, v) :: m' else (k', v') :: Map_set m' k v
  end.

(** [obj[key]] for reading: a missing property reads as [undefined]. *)
Definition prop_get (o : list (string * JsValue)) (k : string) : JsValue :=
  default JUndefined (Map_get o k).

(** [Object.keys(obj)] *)
Definition Object_keys {V : Type} (o : list (string * V)) : list string :=
  o.*1.

(** [s.split('.')]: never empty, [''.split('.')] is [['']]. *)
Fixpoint split_dot (s : string) : list string :=
  match s with
  | EmptyString => [EmptyString]
  | String c rest =>
      if Ascii.eqb c "."%char then EmptyString :: split_dot rest
      else match split_dot rest with
           | [] => [String c EmptyString]
           | h :: t => String c h :: t
           end
  end.

(** [parts.join(sep)] *)
Definition join (sep : string) (parts : list string) : string :=
  String.concat sep parts.

(** A string is falsy exactly when it is empty. *)
Definition truthy (s : string) : bool :=
  match s with EmptyString => false | _ => true end.

(** ** Exceptions and results *)

Inductive Exception : Type :=
| InvalidUpdateException (message : string)
| InvalidUpdatesException (message : string)
| InvalidUpdateValueException (path : string) (message : string)
| IndexNotFoundException (index : string)
| TransactionValidationException (message : string)
| IdempotentParameterMismatchException (message : string)
| StoreException (code : string).

Inductive result (A : Type) : Type :=
| Ok (a : A)
| Throw (e : Exception).
Arguments Ok {A} a.
Arguments Throw {A} e.

Global Instance result_ret : MRet result := λ A a, Ok a.
Global Instance result_bind : MBind result := λ A B f r,
  match r with Ok a => f a | Throw e => Throw e end.

Definition is_Ok {A : Type} (r : result A) : Prop := ∃ a, r = Ok a.
Definition is_Throw {A : Type} (r : result A) : Prop := ∃ e, r = Throw e.

(** ** Collections *)

Definition KeyPath : Type := list string.

Inductive KeyType : Type := KT_partition | KT_sort.

Global Instance KeyType_eq_dec : EqDecision KeyType.
Proof. solve_decision. Defined.

(** [x === undefined] and [x !== undefined] for an optional result. *)
Definition is_absent {A : Type} (x : option A) : bool :=
  match x with None => true | Some _ => false end.
Definition is_present {A : Type} (x : option A) : bool :=
  match x with None => false | Some _ => true end.

(** [SecondaryIndexLayout]; the compiler reads [sortKey] through a cast to
    [string]. *)
Record SecondaryIndexLayout : Type := {
  indexName : string;
  partitionKey : string;
  sortKey : string;
}.

Record CollectionLayout : Type := {
  tableName : string;
  findKeys : option (list SecondaryIndexLayout);
}.

Record AccessPattern : Type := {
  ap_indexName : string;
  partitionKeys : list KeyPath;
  sortKeys : option (list KeyPath);
}.

Record Collection : Type := {
  name : string;
  layout : CollectionLayout;
  accessPatterns : option (list AccessPattern);
}.

(** [Updates]: the own properties of the updates object, in the order
    [Object.keys] lists them. *)
Definition Updates : Type := list (string * JsValue).

(** ** Imported functions *)

Class Externals : Type := {
  (** the marshalled form of a value (aws-sdk) *)
  AttributeValue : Type;
  (** [Converter.input] *)
  Converter_input : JsValue → AttributeValue;
  (** [isSafeAttributeName] of [expression_util] *)
  isSafeAttributeName : string → bool;
  (** [invertMap] of [base/util] *)
  invertMap : list (string * string) → list (string * string);
  (** [findMatchingPath] of [base/util] *)
  findMatchingPath : list KeyPath → KeyPath → option KeyPath;
  (** [assembleIndexedValue] of [base/util] *)
  assembleIndexedValue : KeyType → string → list JsValue → result (option string);
  (** lodash [get] with an array path *)
  lodash_get : JsValue → KeyPath → JsValue;
  (** [String.prototype.trim] *)
  String_trim : string → string;
  (** [Converter.unmarshall] *)
  Converter_unmarshall : list (string * AttributeValue) → JsValue;
  (** [unwrap] of [base/util] *)
  unwrap : JsValue → JsValue;
}.

(** ** Name and value mapping sessions ([base/mappers.ts]) *)

(** The state captured by the closure of [createNameMapper]. *)
Record NameMapper : Type := {
  nm_currentIndex : nat;
  attributeNameMap : list (string * string);
}.

(** The state captured by the closure of [createValueMapper]. *)
Record ValueMapper `{Externals} : Type := {
  vm_currentIndex : nat;
  valueMap : list (string * AttributeValue);
}.

Section Mappers.
Context `{E : Externals}.

Definition createNameMapper : NameMapper :=
  {| nm_currentIndex := 0;
     attributeNameMap := Map_set [] "value" "#value" |}.

(** The branch of [map] taken when [!nameMapping] holds: a new placeholder
    [#attr${currentIndex++}] is recorded for [name]. *)
Definition NameMapper_fresh (nm : NameMapper) (name : string)
  : string * NameMapper :=
  let nameMapping := "#attr" +:+ pretty (nm_currentIndex nm) in
  (nameMapping,
   {| nm_currentIndex := S (nm_currentIndex nm);
      attributeNameMap := Map_set (attributeNameMap nm) name nameMapping |}).

(** [nameMapper.map(name)]: the returned string and the state afterwards. *)
Definition NameMapper_map (nm : NameMapper) (name : string)
  : string * NameMapper :=
  if isSafeAttributeName name then (name, nm)
  else
    match Map_get (attributeNameMap nm) name with
    | Some nameMapping =>
        if truthy nameMapping then (nameMapping, nm)
        else NameMapper_fresh nm name
    | None => NameMapper_fresh nm name
    end.

(** [nameMapper.get()] *)
Definition NameMapper_get (nm : NameMapper) : list (string * string) :=
  invertMap (attributeNameMap nm).

(** [parts.map(part => nameMapper.map(part))], left to right. *)
Fixpoint NameMapper_mapAll (nm : NameMapper) (parts : list string)
  : list string * NameMapper :=
  match parts with
  | [] => ([], nm)
  | part :: rest =>
      let '(mapped, nm1) := NameMapper_map nm part in
      let '(others, nm2) := NameMapper_mapAll nm1 rest in
      (mapped :: others, nm2)
  end.

Definition createValueMapper : ValueMapper :=
  {| vm_currentIndex := 0; valueMap := [] |}.

(** [valueMapper.map(value)]: the returned reference and the state
    afterwards. *)
Definition ValueMapper_map (vm : ValueMapper) (value : JsValue)
  : string * ValueMapper :=
  let valueKey := ":value" +:+ pretty (vm_currentIndex vm) in
  let convertedValue := Converter_input value in
  (valueKey,
   {| vm_currentIndex := S (vm_currentIndex vm);
      valueMap := Map_set (valueMap vm) valueKey convertedValue |}).

(** [valueMapper.get()]: the entries of the map copied, in order, into a
    new object. *)
Definition ValueMapper_get (vm : ValueMapper)
  : list (string * AttributeValue) :=
  foldl (λ obj kv, Map_set obj kv.1 kv.2) [] (valueMap vm).

(** [values.map(v => valueMapper.map(v))], left to right. *)
Fixpoint ValueMapper_mapAll (vm : ValueMapper) (values : list JsValue)
  : list string * ValueMapper :=
  match values with
  | [] => ([], vm)
  | value :: rest =>
      let '(ref, vm1) := ValueMapper_map vm value in
      let '(refs, vm2) := ValueMapper_mapAll vm1 rest in
      (ref :: refs, vm2)
  end.

End Mappers.

(** ** The update compiler ([operations/update_by_id.ts]) *)

(** The object returned by [createUpdateActionForKey]. *)
Record UpdateAction : Type := {
  attributeName : string;
  value : option string;
}.

(** The request handed to [ctx.ddb.updateItem]. *)
Record UpdateItemInput `{Externals} : Type := {
  TableName : string;
  Key : list (string * AttributeValue);
  ReturnValues : string;
  ExpressionAttributeNames : list (string * string);
  ExpressionAttributeValues : list (string * AttributeValue);
  UpdateExpression : string;
}.

(** The part of the context the update path uses: the store client. *)
Record Context `{Externals} : Type := {
  ddb_updateItem : UpdateItemInput → result (list (string * AttributeValue));
}.

(** The mutable variables of one compilation: both mapping sessions and the
    two action lists. *)
Record Compilation `{Externals} : Type := {
  nameMapper : NameMapper;
  valueMapper : ValueMapper;
  expressionSetActions : list string;
  expressionDeleteActions : list string;
}.

Section Compiler.
Context `{E : Externals}.

(** [Object.keys(updates).map(updatePath => updatePath.split('.'))] *)
Definition extractUpdateKeyPaths (updates : Updates) : list KeyPath :=
  map (λ updatePath, split_dot updatePath) (Object_keys updates).

(** The message of the exception thrown for an incomplete partition key. *)
Definition all_values_required (keyType : KeyType) (keyPaths : list KeyPath)
  : string :=
  "all values are required for "
  +:+ match keyType with KT_partition => "partition" | KT_sort => "sort" end
  +:+ " access pattern with keys {"
  +:+ join ", " (map (λ kp, join "." kp) keyPaths) +:+ "}".

(** [keyPaths.map(partitionKey => findMatchingPath(updateKeyPaths, partitionKey))] *)
Definition matchingUpdatePaths_of (keyPaths : list KeyPath) (updates : Updates)
  : list (option KeyPath) :=
  map (λ partitionKey, findMatchingPath (extractUpdateKeyPaths updates) partitionKey)
      keyPaths.

(** The callback of [keyPaths.map((keyPath, index) => ...)] that resolves
    the new value of one key path. *)
Definition updateValue_at (updates : Updates)
    (matchingUpdatePaths : list (option KeyPath))
    (index : nat) (keyPath : KeyPath) : JsValue :=
  match matchingUpdatePaths !! index with
  | Some (Some matchingUpdatePath) =>
      let value := prop_get updates (join "." matchingUpdatePath) in
      if decide (length keyPath ≠ length matchingUpdatePath) then
        let difference := drop (length matchingUpdatePath) keyPath in
        lodash_get value difference
      else value
  | _ => JUndefined
  end.

Definition createUpdateActionForKey (collectionName : string)
    (keyType : KeyType) (keyPaths : list KeyPath)
    (indexLayout : SecondaryIndexLayout) (updates : Updates)
  : result (option UpdateAction) :=
  let matchingUpdatePaths := matchingUpdatePaths_of keyPaths updates in
  let attributeName :=
    match keyType with
    | KT_sort => sortKey indexLayout
    | KT_partition => partitionKey indexLayout
    end in
  if forallb (λ updatePath, is_absent updatePath) matchingUpdatePaths
  then Ok None
  else if bool_decide (keyType = KT_partition)
          && negb (forallb (λ updatePath, is_present updatePath)
                           matchingUpdatePaths)
  then Throw (InvalidUpdatesException (all_values_required keyType keyPaths))
  else
    let updateValues :=
      imap (updateValue_at updates matchingUpdatePaths) keyPaths in
    value ← assembleIndexedValue keyType collectionName updateValues;
    Ok (Some {| attributeName := attributeName; value := value |}).

Definition findCollectionIndex (collection : Collection) (indexName' : string)
  : result SecondaryIndexLayout :=
  match findKeys (layout collection) with
  | Some keys =>
      match find (λ fk, bool_decide (indexName fk = indexName')) keys with
      | Some layout => Ok layout
      | None => Throw (IndexNotFoundException indexName')
      end
  | None => Throw (IndexNotFoundException indexName')
  end.

(** [update.value] as passed to [valueMapper.map]. *)
Definition value_of (v : option string) : JsValue :=
  match v with Some s => JString s | None => JUndefined end.

(** [expressionSetActions.push(`${nameMapping} = ${valueMapping}`)] after
    mapping the attribute name and the value. *)
Definition pushSetAction (c : Compilation) (update : UpdateAction)
  : Compilation :=
  let '(nameMapping, nm) := NameMapper_map (nameMapper c) (attributeName update) in
  let '(valueMapping, vm) := ValueMapper_map (valueMapper c) (value_of (value update)) in
  {| nameMapper := nm; valueMapper := vm;
     expressionSetActions :=
       expressionSetActions c ++ [nameMapping +:+ " = " +:+ valueMapping];
     expressionDeleteActions := expressionDeleteActions c |}.

(** [expressionDeleteActions.push(nameMapping)] after mapping the attribute
    name. *)
Definition pushDeleteAction (c : Compilation) (update : UpdateAction)
  : Compilation :=
  let '(nameMapping, nm) := NameMapper_map (nameMapper c) (attributeName update) in
  {| nameMapper := nm; valueMapper := valueMapper c;
     expressionSetActions := expressionSetActions c;
     expressionDeleteActions := expressionDeleteActions c ++ [nameMapping] |}.

(** First statement of the loop body of [mapAccessPatterns]: the partition
    key of one access pattern. *)
Definition partitionKeyStep (collection : Collection) (updates : Updates)
    (ap : AccessPattern) (c : Compilation) : result Compilation :=
  if bool_decide (0 < length (partitionKeys ap)) then
    layout ← findCollectionIndex collection (ap_indexName ap);
    update ← createUpdateActionForKey (name collection) KT_partition
                (partitionKeys ap) layout updates;
    match update with
    | Some update => Ok (pushSetAction c update)
    | None => Ok c
    end
  else Ok c.

(** Second statement of the loop body: the sort key of the access
    pattern. *)
Definition sortKeyStep (collection : Collection) (updates : Updates)
    (ap : AccessPattern) (c : Compilation) : result Compilation :=
  match sortKeys ap with
  | Some sortKeys' =>
      if bool_decide (0 < length sortKeys') then
        layout ← findCollectionIndex collection (ap_indexName ap);
        update ← createUpdateActionForKey (name collection) KT_sort
                    sortKeys' layout updates;
        match update with
        | Some update =>
            match value update with
            | Some _ => Ok (pushSetAction c update)
            | None => Ok (pushDeleteAction c update)
            end
        | None => Ok c
        end
      else Ok c
  | None => Ok c
  end.

(** The body of the loop over [collection.accessPatterns]. *)
Definition accessPatternStep (collection : Collection) (updates : Updates)
    (ap : AccessPattern) (c : Compilation) : result Compilation :=
  c1 ← partitionKeyStep collection updates ap c;
  sortKeyStep collection updates ap c1.

(** The loop over the access patterns, in declaration order. *)
Fixpoint accessPatternLoop (collection : Collection) (updates : Updates)
    (aps : list AccessPattern) (c : Compilation) : result Compilation :=
  match aps with
  | [] => Ok c
  | ap :: rest =>
      c1 ← accessPatternStep collection updates ap c;
      accessPatternLoop collection updates rest c1
  end.

(** [mapAccessPatterns]: the two mapping sessions are shared with the
    caller, the action lists are new. *)
Definition mapAccessPatterns (collection : Collection)
    (nameMapper' : NameMapper) (valueMapper' : ValueMapper)
    (updates : Updates) : result Compilation :=
  let c := {| nameMapper := nameMapper'; valueMapper := valueMapper';
              expressionSetActions := []; expressionDeleteActions := [] |} in
  match accessPatterns collection with
  | None => Ok c
  | Some aps => accessPatternLoop collection updates aps c
  end.

(** The loop of [updateInternal] over [updatePaths.entries()]. An index is
    always within [updateKeyPaths], which has one entry per update path. *)
Fixpoint updatePathLoop (updates : Updates) (updateKeyPaths : list KeyPath)
    (entries : list (nat * string)) (c : Compilation) : result Compilation :=
  match entries with
  | [] => Ok c
  | (index, updatePath) :: rest =>
      let updateKeyPath := default [] (updateKeyPaths !! index) in
      let value := prop_get updates updatePath in
      if is_undefined value then
        Throw (InvalidUpdateValueException updatePath "value must not be undefined")
      else
        let '(valueName, vm) := ValueMapper_map (valueMapper c) value in
        let '(parts, nm) := NameMapper_mapAll (nameMapper c) updateKeyPath in
        let expressionAttributeNameParts := "#value" :: parts in
        updatePathLoop updates updateKeyPaths rest
          {| nameMapper := nm; valueMapper := vm;
             expressionSetActions :=
               expressionSetActions c
               ++ [join "." expressionAttributeNameParts +:+ " = " +:+ valueName];
             expressionDeleteActions := expressionDeleteActions c |}
  end.

(** The two clauses of the update expression, before trimming. *)
Definition updateExpression_of (setActions deleteActions : list string)
  : string :=
  (if bool_decide (length setActions ≠ 0)
   then " SET " +:+ join ", " setActions else "")
  +:+ (if bool_decide (length deleteActions ≠ 0)
       then " REMOVE " +:+ join ", " deleteActions else "").

(** [updateInternal] up to the point where the request is complete: every
    statement before [ctx.ddb.updateItem]. *)
Definition updateInternal_request (collection : Collection)
    (key : list (string * AttributeValue)) (updates : Updates)
  : result UpdateItemInput :=
  let updatePaths := Object_keys updates in
  if bool_decide (length updatePaths = 0) then
    Throw (InvalidUpdatesException
             "There must be at least one update path in the updates object")
  else
    let updateKeyPaths := extractUpdateKeyPaths updates in
    let c0 := {| nameMapper := createNameMapper;
                 valueMapper := createValueMapper;
                 expressionSetActions := [];
                 expressionDeleteActions := [] |} in
    c1 ← updatePathLoop updates updateKeyPaths (imap pair updatePaths) c0;
    c2 ← mapAccessPatterns collection (nameMapper c1) (valueMapper c1) updates;
    let setActions := expressionSetActions c1 ++ expressionSetActions c2 in
    let deleteActions :=
      expressionDeleteActions c1 ++ expressionDeleteActions c2 in
    Ok {| TableName := tableName (layout collection);
          Key := key;
          ReturnValues := "ALL_NEW";
          ExpressionAttributeNames := NameMapper_get (nameMapper c2);
          ExpressionAttributeValues := ValueMapper_get (valueMapper c2);
          UpdateExpression :=
            String_trim (updateExpression_of setActions deleteActions) |}.

(** [updateInternal]: the outcome together with the requests sent to the
    store, in order. *)
Definition updateInternal (ctx : Context) (collection : Collection)
    (key : list (string * AttributeValue)) (updates : Updates)
  : result JsValue * list UpdateItemInput :=
  match updateInternal_request collection key updates with
  | Throw e => (Throw e, [])
  | Ok updateItem =>
      (attributes ← ddb_updateItem ctx updateItem;
       Ok (unwrap (Converter_unmarshall attributes)),
       [updateItem])
  end.

End Compiler.

(** ** The imported functions, as the design document describes them *)

Module SpecModel.

(** [isSubsetOfKeyPath]-style test: [prefix] is an initial segment of
    [path]. *)
Definition is_prefix_of (prefix path : KeyPath) : bool :=
  bool_decide (take (length prefix) path = prefix).

(** Modelled from the spec: [findMatchingPath] of [base/util] is not among
    the sources. A key path matches an update path if it is an exact match,
    if the update path is an ancestor of it, or if the update path addresses
    a sub-field under it; the first update path that matches is returned. *)
Definition matchPath (updateKeyPaths : list KeyPath) (keyPath : KeyPath)
  : option KeyPath :=
  find (λ updatePath, is_prefix_of updatePath keyPath
                      || is_prefix_of keyPath updatePath) updateKeyPaths.

(** Modelled from the spec: [assembleIndexedValue] of [base/util] is not
    among the sources. With every value present the result is the literal
    [literal collectionName values]; a sort key whose values are all absent
    is [undefined]; present and absent values together are rejected. The
    document leaves open a partition key whose values are all absent, which
    is given the same result as a sort key. *)
Definition assemble (literal : string → list JsValue → string)
    (role : KeyType) (collectionName : string) (orderedValues : list JsValue)
  : result (option string) :=
  if forallb (λ v, negb (is_undefined v)) orderedValues then
    Ok (Some (literal collectionName orderedValues))
  else if forallb is_undefined orderedValues then Ok None
  else Throw (InvalidUpdateException
                "composite key values must be supplied together").

(** The string form of a value inside a composite key, with the separator
    escaped. *)
Fixpoint escape_separator (s : string) : string :=
  match s with
  | EmptyString => EmptyString
  | String c rest =>
      if Ascii.eqb c "|"%char || Ascii.eqb c "\"%char
      then String "\"%char (String c (escape_separator rest))
      else String c (escape_separator rest)
  end.

Definition string_form (v : JsValue) : string :=
  match v with
  | JString s => escape_separator s
  | JNumber n => pretty n
  | JBool true => "true"
  | JBool false => "false"
  | _ => ""
  end.

(** One encoding that fits the description: the collection name and the
    string form of each value, joined by [|]. *)
Definition literal (collectionName : string) (values : list JsValue) : string :=
  join "|" (collectionName :: map string_form values).

(** lodash [get] on plain objects: each segment selects a property, a
    missing property or a non-object gives [undefined], and so does an
    empty path. *)
Fixpoint get_path (v : JsValue) (path : KeyPath) : option JsValue :=
  match path with
  | [] => Some v
  | segment :: rest =>
      match v with
      | JObject fields =>
          match Map_get fields segment with
          | Some v' => get_path v' rest
          | None => None
          end
      | _ => None
      end
  end.

Definition get (v : JsValue) (path : KeyPath) : JsValue :=
  match path with
  | [] => JUndefined
  | _ => default JUndefined (get_path v path)
  end.

(** Letters and digits of attribute names. *)
Definition is_letter (c : ascii) : bool :=
  let n := nat_of_ascii c in
  (Nat.leb 65 n && Nat.leb n 90) || (Nat.leb 97 n && Nat.leb n 122).

Definition is_digit (c : ascii) : bool :=
  let n := nat_of_ascii c in Nat.leb 48 n && Nat.leb n 57.

(** Modelled from the spec: [isSafeAttributeName] of [expression_util] is
    not among the sources. A name is safe when it does not collide with the
    store's syntax or reserved words: it is made of letters and digits,
    starts with a letter and is not in the list [reserved]. *)
Definition isSafeName (reserved : list string) (name : string) : bool :=
  match list_ascii_of_string name with
  | [] => false
  | c :: rest =>
      is_letter c && forallb (λ c', is_letter c' || is_digit c') rest
      && negb (bool_decide (name ∈ reserved))
  end.

(** Modelled from the spec: [invertMap] of [base/util] is not among the
    sources. The table handed to the store has an entry
    [{ [mappedName]: name }] for every entry of the session's map. *)
Definition invert (m : list (string * string)) : list (string * string) :=
  foldl (λ obj kv, Map_set obj kv.2 kv.1) [] m.

(** [trim], for strings whose white space is the space character. *)
Fixpoint trim_start (s : string) : string :=
  match s with
  | String c rest => if Ascii.eqb c " "%char then trim_start rest else s
  | EmptyString => EmptyString
  end.

Definition trim (s : string) : string :=
  String.rev (trim_start (String.rev (trim_start s))).

(** The instance used to evaluate the compiler on examples: values are
    their own marshalled form. *)
Definition externals : Externals := {|
  AttributeValue := JsValue;
  Converter_input := λ v, v;
  isSafeAttributeName := isSafeName ["value"; "count"; "name"];
  invertMap := invert;
  findMatchingPath := matchPath;
  assembleIndexedValue := assemble literal;
  lodash_get := get;
  String_trim := trim;
  Converter_unmarshall := λ attributes, JObject attributes;
  unwrap := λ document, prop_get (match document with
                                  | JObject fields => fields
                                  | _ => []
                                  end) "value";
|}.

End SpecModel.

(** ** The transaction coordinator *)

Module Transaction.

(** One write of a batch. *)
Inductive TransactionWriteRequest (Document Condition : Type) : Type :=
| Insert (collection : string) (document : Document) (condition : option Condition)
| Replace (collection : string) (document : Document) (condition : option Condition)
| Delete (collection : string) (id : string).
Arguments Insert {Document Condition} collection document condition.
Arguments Replace {Document Condition} collection document condition.
Arguments Delete {Document Condition} collection id.

(** The backing store: the items by [(collection, id)] and, for every
    idempotency token it has accepted, the payload accepted with it. *)
Record Store (Document Condition : Type) : Type := {
  items : gmap (string * string) Document;
  tokens : gmap string (list (TransactionWriteRequest Document Condition));
}.
Arguments items {Document Condition} s.
Arguments tokens {Document Condition} s.

Section Coordinator.
Context {Document Condition : Type}.
Context `{EqDecision Document} `{EqDecision Condition}.
(** the identifier field of a document *)
Context (document_id : Document → string).
(** whether a condition holds of the stored item, if there is one *)
Context (holds : Condition → option Document → bool).
(** the store's bound on the size of a transaction *)
Context (transactionLimit : nat).

Local Abbreviation Request := (TransactionWriteRequest Document Condition).

Global Instance TransactionWriteRequest_eq_dec : EqDecision Request.
Proof. solve_decision. Defined.

(** The [(collection, id)] pair a request writes. *)
Definition target (request : Request) : string * string :=
  match request with
  | Insert collection document _ => (collection, document_id document)
  | Replace collection document _ => (collection, document_id document)
  | Delete collection id => (collection, id)
  end.

Definition condition_holds (condition : option Condition)
    (existing : option Document) : bool :=
  match condition with
  | Some c => holds c existing
  | None => true
  end.

(** The precondition of one operation against the store: an insert needs
    the item not to exist. *)
Definition precondition (store : Store Document Condition) (request : Request)
  : bool :=
  let existing := items store !! target request in
  match request with
  | Insert _ _ condition => is_absent existing && condition_holds condition existing
  | Replace _ _ condition => condition_holds condition existing
  | Delete _ _ => true
  end.

Definition apply_request (request : Request)
    (m : gmap (string * string) Document) : gmap (string * string) Document :=
  match request with
  | Insert _ document _ => <[target request := document]> m
  | Replace _ document _ => <[target request := document]> m
  | Delete _ _ => delete (target request) m
  end.

(** Modelled from the spec: the store's transactional write is an external
    collaborator. A token seen before with the same payload makes the call
    a successful no-op, with another payload the call is rejected;
    otherwise the batch is applied whole if every precondition holds and
    not at all if one fails. *)
Definition store_transactWrite (store : Store Document Condition)
    (requests : list Request) (token : option string)
  : result (Store Document Condition) :=
  match token ≫= (λ t, tokens store !! t) with
  | Some payload =>
      if decide (payload = requests) then Ok store
      else Throw (IdempotentParameterMismatchException
                    "token was used with another payload")
  | None =>
      if forallb (precondition store) requests then
        Ok {| items := foldl (λ m request, apply_request request m)
                             (items store) requests;
              tokens := match token with
                        | Some t => <[t := requests]> (tokens store)
                        | None => tokens store
                        end |}
      else Throw (StoreException "a precondition of the transaction failed")
  end.

(** Modelled from the spec: [transactionWrite] of
    [operations/transact_write] is not among the sources (its test file
    is). The batch is validated, its size against the store's bound and its
    targets for duplicates, and then submitted in one call. The result is
    the outcome, the store afterwards and the calls made to the store. *)
Definition transactionWrite (store : Store Document Condition)
    (requests : list Request) (token : option string)
  : result () * Store Document Condition * list (list Request * option string) :=
  if bool_decide (transactionLimit < length requests) then
    (Throw (TransactionValidationException "too many requests in one transaction"),
     store, [])
  else if negb (bool_decide (NoDup (target <$> requests))) then
    (Throw (TransactionValidationException
              "two requests of the transaction write the same item"),
     store, [])
  else
    match store_transactWrite store requests token with
    | Ok store' => (Ok (), store', [(requests, token)])
    | Throw e => (Throw e, store, [(requests, token)])
    end.

End Coordinator.
End Transaction.

(** ** Vocabulary of the properties *)

Section Vocabulary.
Context `{E : Externals}.

(** The references [:value<start>], ..., [:value<start+n-1>]. *)
Definition valueRefs (start n : nat) : list string :=
  (λ i, ":value" +:+ pretty i) <$> seq start n.

(** The names that get a new placeholder during a run of calls, in the
    order in which they are first seen: the unsafe names not in [seen]. *)
Fixpoint firstSeen (seen names : list string) : list string :=
  match names with
  | [] => []
  | name :: rest =>
      if isSafeAttributeName name || bool_decide (name ∈ seen)
      then firstSeen seen rest
      else name :: firstSeen (seen ++ [name]) rest
  end.

(** The table entries of the names numbered from [start]. *)
Definition attrEntries (start : nat) (names : list string)
  : list (string * string) :=
  imap (λ i name, (name, "#attr" +:+ pretty (start + i))) names.

(** What a name stands for under a table: itself if safe, its entry if
    not. *)
Definition placeholder_of (table : list (string * string)) (name : string)
  : string :=
  if isSafeAttributeName name then name
  else default "" (Map_get table name).

(** The state of a session in which the names [fresh] got placeholders. *)
Definition session_inv (nm : NameMapper) (fresh : list string) : Prop :=
  attributeNameMap nm = ("value", "#value") :: attrEntries 0 fresh
  ∧ nm_currentIndex nm = length fresh
  ∧ NoDup ("value" :: fresh).

(** A declared key path matches some update path. *)
Definition matched (updates : Updates) (keyPath : KeyPath) : Prop :=
  is_Some (findMatchingPath (extractUpdateKeyPaths updates) keyPath).

(** The values handed to [assembleIndexedValue] for the key paths of one
    role. *)
Definition resolvedValues (updates : Updates) (keyPaths : list KeyPath)
  : list JsValue :=
  imap (updateValue_at updates (matchingUpdatePaths_of keyPaths updates)) keyPaths.

(** The action strings pushed from the state [c] for an index attribute. *)
Definition setActionOn (c : Compilation) (attribute : string) : string :=
  (NameMapper_map (nameMapper c) attribute).1
  +:+ " = " +:+ ":value" +:+ pretty (vm_currentIndex (valueMapper c)).

Definition removeActionOn (c : Compilation) (attribute : string) : string :=
  (NameMapper_map (nameMapper c) attribute).1.

(** The state in which [mapAccessPatterns] starts its loop. *)
Definition indexLoopStart (c : Compilation) : Compilation :=
  {| nameMapper := nameMapper c; valueMapper := valueMapper c;
     expressionSetActions := []; expressionDeleteActions := [] |}.

(** The set action of the update path [updatePath], the [i]-th of the
    updates object, under the name table [table]. *)
Definition primaryAction (table : list (string * string)) (i : nat)
    (updatePath : string) : string :=
  join "." ("#value" :: (placeholder_of table <$> split_dot updatePath))
  +:+ " = " +:+ ":value" +:+ pretty i.

(** The compilation [c'] extends the action lists of [c]. *)
Definition extends (c c' : Compilation) : Prop :=
  expressionSetActions c `prefix_of` expressionSetActions c'
  ∧ expressionDeleteActions c `prefix_of` expressionDeleteActions c'.

(** A string without the separator [.]. *)
Fixpoint no_dot (s : string) : bool :=
  match s with
  | EmptyString => true
  | String c rest => negb (Ascii.eqb c "."%char) && no_dot rest
  end.

(** The set actions of [c] are numbered from [base]: the session has
    issued [base] references before them and one for each of them, its
    keys are the references issued, and the [i]-th set action assigns the
    reference [:value<base+i>]. *)
Definition numbered (base : nat) (c : Compilation) : Prop :=
  vm_currentIndex (valueMapper c) = base + length (expressionSetActions c)
  ∧ (valueMap (valueMapper c)).*1 = valueRefs 0 (vm_currentIndex (valueMapper c))
  ∧ ∀ i action,
      expressionSetActions c !! i = Some action →
      ∃ target, action = target +:+ " = " +:+ ":value" +:+ pretty (base + i).

(** [c'] keeps every non-empty entry of the name table of [c]. *)
Definition keeps_names (c c' : Compilation) : Prop :=
  ∀ k p, Map_get (attributeNameMap (nameMapper c)) k = Some p →
         truthy p = true →
         Map_get (attributeNameMap (nameMapper c')) k = Some p.

(** The compilation in which [updateInternal] starts. *)
Definition compilationStart : Compilation :=
  {| nameMapper := createNameMapper; valueMapper := createValueMapper;
     expressionSetActions := []; expressionDeleteActions := [] |}.



End Vocabulary.

(** ** Examples *)

Module Examples.

(** A table with one secondary index. *)
Definition gsi1 : SecondaryIndexLayout :=
  {| indexName := "gsi1"; partitionKey := "gpk1"; sortKey := "gsk1" |}.

Definition userTable : CollectionLayout :=
  {| tableName := "User"; findKeys := Some [gsi1] |}.

(** An access pattern with a partition key of two fields. *)
Definition byEmailAndOrg : AccessPattern :=
  {| ap_indexName := "gsi1";
     partitionKeys := [["email"]; ["org"; "id"]];
     sortKeys := None |}.


Definition users : Collection :=
  {| name := "users"; layout := userTable;
     accessPatterns := Some [byEmailAndOrg] |}.


(** Update documents. *)
Definition emailOnly : Updates := [("email", JString "new@x.com")].

Definition emailAndOrg : Updates :=
  [("email", JString "new@x.com"); ("org", JObject [("id", JString "o1")])].


Definition cityOnly : Updates := [("profile.city", JString "Oslo")].

Definition cityAndRank : Updates :=
  [("profile", JObject [("city", JString "Oslo")]); ("rank", JNumber 3)].

Definition nameOnly : Updates := [("nickname", JString "neo")].

Definition undefinedAge : Updates :=
  [("email", JString "new@x.com"); ("age", JUndefined)].

(** The compilation state before any call. *)
Definition start : @Compilation SpecModel.externals :=
  {| nameMapper := createNameMapper;
     valueMapper := @createValueMapper SpecModel.externals;
     expressionSetActions := [];
     expressionDeleteActions := [] |}.

(** A store client that answers with the key it was given. *)
Definition echo : @Context SpecModel.externals :=
  {| ddb_updateItem := λ request, Ok (Key request) |}.

(** Documents of the transaction examples: an identifier and a name. *)
Definition document_id (document : string * string) : string := document.1.

(** The one condition of the examples: whether the item exists. *)
Definition holds (shouldExist : bool) (existing : option (string * string))
  : bool :=
  bool_decide (is_present existing = shouldExist).

Definition emptyStore : Transaction.Store (string * string) bool :=
  {| Transaction.items := ∅; Transaction.tokens := ∅ |}.

Definition replaceAndDelete
  : list (Transaction.TransactionWriteRequest (string * string) bool) :=
  [Transaction.Replace "users" ("test-id-1", "Neo") None;
   Transaction.Delete "users" "test-id-1"].



Definition commit :=
  Transaction.transactionWrite document_id holds 25.

(** A collection whose access pattern names an index that the layout
    does not have. *)
Definition byMissingIndex : AccessPattern :=
  {| ap_indexName := "gsi2";
     partitionKeys := [["email"]];
     sortKeys := None |}.

Definition orphans : Collection :=
  {| name := "orphans"; layout := userTable;
     accessPatterns := Some [byMissingIndex] |}.

(** The request compiled for [emailAndOrg] against [users]. *)
Definition emailAndOrgRequest : @UpdateItemInput SpecModel.externals :=
  @Build_UpdateItemInput SpecModel.externals
    "User" [] "ALL_NEW"
    [("#value", "value")]
    [(":value0", JString "new@x.com");
     (":value1", JObject [("id", JString "o1")]);
     (":value2", JString "users|new@x.com|o1")]
    "SET #value.email = :value0, #value.org = :value1, gpk1 = :value2".



End Examples.

(** * Properties *)

(** ** Maps and strings *)

Section MapFacts.
Context {V : Type}.
Implicit Types (m : list (string * V)) (k : string) (v : V).

Lemma Map_get_None m k : Map_get m k = None ↔ k ∉ m.*1.
Proof.
  induction m as [|[k' v'] m IH]; simpl.
  - split; [intros _; apply not_elem_of_nil | done].
  - case_decide as Hk; subst.
    + split; [done | intros Hn; exfalso; apply Hn; left].
    + rewrite IH, not_elem_of_cons.
      split; [intros ?; split; [congruence | done] | intros [_ ?]; done].
Qed.

Lemma Map_get_Some_elem m k v : Map_get m k = Some v → (k, v) ∈ m.
Proof.
  induction m as [|[k' v'] m IH]; simpl; [done|].
  case_decide; subst.
  - intros [= ->]. left.
  - intros Hm. right. auto.
Qed.

Lemma Map_get_elem m k v : NoDup m.*1 → (k, v) ∈ m → Map_get m k = Some v.
Proof.
  induction m as [|[k' v'] m IH]; simpl; intros Hnd Hin.
  - by apply elem_of_nil in Hin.
  - apply NoDup_cons in Hnd as [Hk Hnd].
    apply elem_of_cons in Hin as [[= -> ->]|Hin]; [by rewrite decide_True|].
    case_decide; subst; [|by apply IH].
    exfalso. apply Hk. apply list_elem_of_fmap. by exists (k, v).
Qed.

Lemma Map_set_fresh m k v : k ∉ m.*1 → Map_set m k v = m ++ [(k, v)].
Proof.
  induction m as [|[k' v'] m IH]; simpl; [done|].
  rewrite not_elem_of_cons. intros [Hne Hnot].
  case_decide; [congruence|]. by rewrite IH.
Qed.

Lemma Map_get_set_eq m k v : Map_get (Map_set m k v) k = Some v.
Proof.
  induction m as [|[k' v'] m IH]; simpl.
  - by rewrite decide_True.
  - case_decide; simpl; [by rewrite decide_True | by rewrite decide_False].
Qed.

Lemma Map_get_set_ne m k k' v :
  k ≠ k' → Map_get (Map_set m k v) k' = Map_get m k'.
Proof.
  intros Hne. induction m as [|[k0 v0] m IH]; simpl.
  - by rewrite decide_False.
  - case_decide; simpl; subst.
    + by rewrite !decide_False.
    + case_decide; [done | apply IH].
Qed.

(** Copying the entries of a map with distinct keys into an empty object
    yields the same entries in the same order. *)
Lemma foldl_Map_set acc m :
  NoDup (acc.*1 ++ m.*1) →
  foldl (λ obj kv, Map_set obj kv.1 kv.2) acc m = acc ++ m.
Proof.
  revert acc. induction m as [|[k v] m IH]; intros acc Hnd; simpl.
  - by rewrite app_nil_r.
  - simpl in Hnd. apply NoDup_app in Hnd as (Hacc & Hdisj & Hm).
    apply NoDup_cons in Hm as [Hk Hm].
    rewrite Map_set_fresh by (intros Hin; apply (Hdisj _ Hin); left).
    rewrite IH, <- app_assoc; [done|].
    rewrite fmap_app. simpl. rewrite <- app_assoc. simpl.
    apply NoDup_app. split_and!; [done| |by apply NoDup_cons].
    intros x Hx. by apply Hdisj.
Qed.

End MapFacts.

(** [split] and [join] are inverse on the separator [.]. *)
Lemma split_dot_nonempty s : split_dot s ≠ [].
Proof.
  destruct s as [|c s]; simpl; [done|].
  destruct (Ascii.eqb c "."); [done|]. by destruct (split_dot s).
Qed.

Lemma join_split_dot s : join "." (split_dot s) = s.
Proof.
  unfold join. induction s as [|c s IH]; simpl; [done|].
  destruct (Ascii.eqb_spec c ".") as [->|Hc].
  - pose proof (split_dot_nonempty s). destruct (split_dot s) as [|h t] eqn:Hs; [done|].
    simpl in *. by rewrite IH.
  - pose proof (split_dot_nonempty s). destruct (split_dot s) as [|h t] eqn:Hs; [done|].
    simpl in *. destruct t; simpl in *; by rewrite <- IH.
Qed.

(** Placeholders with different numbers are different strings. *)
Lemma placeholder_inj (prefix : string) (i j : nat) :
  prefix +:+ pretty i = prefix +:+ pretty j → i = j.
Proof.
  intros Heq. apply (inj pretty).
  induction prefix as [|c p IH]; simpl in Heq; [done|].
  injection Heq as Heq. auto.
Qed.

(** ** The value mapping session *)

Section ValueMapperFacts.
Context `{E : Externals}.

Lemma valueRefs_NoDup start n : NoDup (valueRefs start n).
Proof.
  unfold valueRefs. apply NoDup_fmap_2_strong; [|apply NoDup_seq].
  intros i j _ _ Hij. by apply placeholder_inj in Hij.
Qed.

Lemma valueRefs_fresh n : ":value" +:+ pretty n ∉ valueRefs 0 n.
Proof.
  unfold valueRefs. intros Hin. apply list_elem_of_fmap in Hin as (i & Hi & Hin).
  apply placeholder_inj in Hi. subst i. apply elem_of_seq in Hin. lia.
Qed.

Lemma valueRefs_snoc start n :
  valueRefs start (S n) = valueRefs start n ++ [":value" +:+ pretty (start + n)].
Proof. unfold valueRefs. by rewrite seq_S, fmap_app. Qed.

(** A run of calls from a state whose keys are the references issued so
    far. *)
Lemma ValueMapper_mapAll_run (vm : ValueMapper) (values : list JsValue) :
  (valueMap vm).*1 = valueRefs 0 (vm_currentIndex vm) →
  ValueMapper_mapAll vm values =
    (valueRefs (vm_currentIndex vm) (length values),
     {| vm_currentIndex := vm_currentIndex vm + length values;
        valueMap := valueMap vm
                    ++ zip (valueRefs (vm_currentIndex vm) (length values))
                           (Converter_input <$> values) |}).
Proof.
  revert vm. induction values as [|value values IH]; intros [i m] Hkeys; simpl in *.
  - by rewrite Nat.add_0_r, app_nil_r.
  - rewrite IH; simpl.
    + rewrite Map_set_fresh by (rewrite Hkeys; apply valueRefs_fresh).
      unfold valueRefs. simpl. rewrite <- app_assoc. simpl.
      do 3 f_equal. lia.
    + rewrite Map_set_fresh by (rewrite Hkeys; apply valueRefs_fresh).
      rewrite fmap_app, Hkeys. simpl. by rewrite valueRefs_snoc.
Qed.

End ValueMapperFacts.

(** C10. Within one value mapping session, the calls of [map] return
    [:value0], [:value1], ... in order, one new reference per call whatever
    the values are (equal values are not shared), and the table extracted
    by [get] binds every reference to the marshalled value of the call that
    returned it. *)
Theorem value_references_are_fresh `{E : Externals} (values : list JsValue) :
  let refs := (ValueMapper_mapAll createValueMapper values).1 in
  let session := (ValueMapper_mapAll createValueMapper values).2 in
  refs = (λ i, ":value" +:+ pretty i) <$> seq 0 (length values)
  ∧ NoDup refs
  ∧ vm_currentIndex session = length values
  ∧ ValueMapper_get session = zip refs (Converter_input <$> values)
  ∧ ∀ (i : nat) (v : JsValue),
      values !! i = Some v →
      refs !! i = Some (":value" +:+ pretty i)
      ∧ Map_get (ValueMapper_get session) (":value" +:+ pretty i)
        = Some (Converter_input v).
Proof.
  intros refs session. subst refs session.
  rewrite ValueMapper_mapAll_run by done. simpl.
  fold (valueRefs 0 (length values)).
  assert (Hlen : length (valueRefs 0 (length values)) = length values)
    by (unfold valueRefs; by rewrite length_fmap, length_seq).
  assert (Hget : ValueMapper_get
            {| vm_currentIndex := length values;
               valueMap := zip (valueRefs 0 (length values))
                               (Converter_input <$> values) |}
          = zip (valueRefs 0 (length values)) (Converter_input <$> values)).
  { unfold ValueMapper_get. simpl. rewrite foldl_Map_set; [done|]. simpl.
    rewrite fst_zip by (rewrite length_fmap; lia). apply valueRefs_NoDup. }
  split_and!; [done | apply valueRefs_NoDup | done | done |].
  intros i v Hi.
  assert (Href : valueRefs 0 (length values) !! i = Some (":value" +:+ pretty i)).
  { unfold valueRefs. rewrite list_lookup_fmap, lookup_seq_lt; [done|].
    by apply lookup_lt_Some in Hi. }
  split; [done|]. rewrite Hget.
  assert (Hin : (":value" +:+ pretty i, Converter_input v)
                ∈ zip (valueRefs 0 (length values)) (Converter_input <$> values)).
  { apply list_elem_of_lookup. exists i. rewrite lookup_zip_with, Href. simpl.
    by rewrite list_lookup_fmap, Hi. }
  apply Map_get_elem; [|done].
  rewrite fst_zip by (rewrite length_fmap; lia). apply valueRefs_NoDup.
Qed.

(** ** The name mapping session *)

Section NameMapperFacts.
Context `{E : Externals}.

Lemma attrEntries_keys start names : (attrEntries start names).*1 = names.
Proof.
  unfold attrEntries. revert start.
  induction names as [|n names IH]; intros start; simpl; [done|].
  f_equal. rewrite <- (IH (S start)) at 2. f_equal.
  apply imap_ext. intros i x _. simpl. do 3 f_equal. lia.
Qed.

Lemma attrEntries_snoc start names name :
  attrEntries start (names ++ [name])
  = attrEntries start names
    ++ [(name, "#attr" +:+ pretty (start + length names))].
Proof. unfold attrEntries. rewrite imap_app. simpl. by rewrite Nat.add_0_r. Qed.

Lemma attrEntries_truthy start names k v :
  (k, v) ∈ attrEntries start names → truthy v = true.
Proof.
  unfold attrEntries. intros Hin. apply list_elem_of_lookup in Hin as [i Hi].
  rewrite list_lookup_imap in Hi. destruct (names !! i); simpl in Hi; [|done].
  by injection Hi as <- <-.
Qed.

Lemma session_inv_create : session_inv createNameMapper [].
Proof.
  split_and!; [done | done |]. apply NoDup_singleton.
Qed.

Lemma session_inv_keys nm fresh :
  session_inv nm fresh → (attributeNameMap nm).*1 = "value" :: fresh.
Proof. intros (-> & _ & _). simpl. by rewrite attrEntries_keys. Qed.

Lemma session_inv_truthy nm fresh k v :
  session_inv nm fresh → Map_get (attributeNameMap nm) k = Some v →
  truthy v = true.
Proof.
  intros (Htbl & _ & _) Hget. apply Map_get_Some_elem in Hget.
  rewrite Htbl in Hget. apply elem_of_cons in Hget as [[= -> ->]|Hin]; [done|].
  by eapply attrEntries_truthy.
Qed.

(** One call on an unsafe name in a session: either the name has an entry,
    which is returned, or it gets the next numbered placeholder. *)
Lemma NameMapper_map_session nm fresh name :
  session_inv nm fresh → isSafeAttributeName name = false →
  (name ∈ ("value" :: fresh) ∧ (NameMapper_map nm name).2 = nm)
  ∨ (¬ (name ∈ ("value" :: fresh))
     ∧ (NameMapper_map nm name).1 = "#attr" +:+ pretty (length fresh)
     ∧ session_inv (NameMapper_map nm name).2 (fresh ++ [name])).
Proof.
  intros Hinv Hunsafe. unfold NameMapper_map. rewrite Hunsafe.
  destruct (Map_get (attributeNameMap nm) name) as [p|] eqn:Hget.
  - rewrite (session_inv_truthy _ _ _ _ Hinv Hget). left. split; [|done].
    rewrite <- (session_inv_keys _ _ Hinv).
    apply Map_get_Some_elem in Hget. apply list_elem_of_fmap. by exists (name, p).
  - right. apply Map_get_None in Hget. pose proof Hget as Hfresh.
    rewrite (session_inv_keys _ _ Hinv) in Hfresh.
    destruct Hinv as (Htbl & Hidx & Hnd). split; [done|]. simpl.
    split; [by rewrite Hidx|]. split_and!; simpl.
    + rewrite Map_set_fresh by done. rewrite Htbl, Hidx. simpl.
      by rewrite attrEntries_snoc.
    + rewrite length_app. simpl. lia.
    + change ("value" :: fresh ++ [name]) with (("value" :: fresh) ++ [name]).
      apply NoDup_app. split_and!; [done| |apply NoDup_singleton].
      intros x Hx Hx'. apply list_elem_of_singleton in Hx'. by subst.
Qed.

Lemma NameMapper_mapAll_session nm fresh names :
  session_inv nm fresh →
  session_inv (NameMapper_mapAll nm names).2
              (fresh ++ firstSeen ("value" :: fresh) names).
Proof.
  revert nm fresh. induction names as [|name names IH]; intros nm fresh Hinv; simpl.
  - by rewrite app_nil_r.
  - destruct (NameMapper_map nm name) as [p nm1] eqn:Hmap.
    destruct (NameMapper_mapAll nm1 names) as [ps nm2] eqn:Hall. simpl.
    assert (nm2 = (NameMapper_mapAll nm1 names).2) as -> by (by rewrite Hall).
    destruct (isSafeAttributeName name) eqn:Hsafe; simpl.
    + unfold NameMapper_map in Hmap. rewrite Hsafe in Hmap.
      injection Hmap as <- <-. by apply IH.
    + destruct (NameMapper_map_session nm fresh name Hinv Hsafe)
        as [[Hin Hsame]|(Hnot & _ & Hinv')]; rewrite Hmap in *; simpl in *.
      * subst nm1. rewrite bool_decide_true by done. by apply IH.
      * rewrite bool_decide_false by done.
        change (fresh ++ name :: ?l) with (fresh ++ [name] ++ l).
        rewrite app_assoc. by apply IH.
Qed.

(** An entry with a non-empty placeholder is never replaced. *)
Lemma NameMapper_map_preserves nm name k p :
  Map_get (attributeNameMap nm) k = Some p → truthy p = true →
  Map_get (attributeNameMap (NameMapper_map nm name).2) k = Some p.
Proof.
  intros Hget Htruthy. unfold NameMapper_map.
  destruct (isSafeAttributeName name); [done|].
  destruct (decide (name = k)) as [->|Hne].
  - by rewrite Hget, Htruthy.
  - destruct (Map_get (attributeNameMap nm) name) as [q|];
      [destruct (truthy q); [done|]|]; simpl; by rewrite Map_get_set_ne.
Qed.

Lemma NameMapper_mapAll_preserves nm names k p :
  Map_get (attributeNameMap nm) k = Some p → truthy p = true →
  Map_get (attributeNameMap (NameMapper_mapAll nm names).2) k = Some p.
Proof.
  revert nm. induction names as [|name names IH]; intros nm Hget Htruthy; simpl.
  - done.
  - pose proof (NameMapper_map_preserves nm name k p Hget Htruthy) as Hstep.
    destruct (NameMapper_map nm name) as [q nm1]. simpl in Hstep.
    specialize (IH nm1 Hstep Htruthy).
    by destruct (NameMapper_mapAll nm1 names) as [qs nm2].
Qed.

(** After a call on an unsafe name the table holds what was returned. *)
Lemma NameMapper_map_recorded nm name :
  isSafeAttributeName name = false →
  Map_get (attributeNameMap (NameMapper_map nm name).2) name
  = Some (NameMapper_map nm name).1
  ∧ truthy (NameMapper_map nm name).1 = true.
Proof.
  intros Hunsafe. unfold NameMapper_map. rewrite Hunsafe.
  destruct (Map_get (attributeNameMap nm) name) as [q|] eqn:Hget;
    [destruct (truthy q) eqn:Hq; [done|]|]; simpl; by rewrite Map_get_set_eq.
Qed.

(** A call on a name whose entry is non-empty returns the entry and leaves
    the session as it is. *)
Lemma NameMapper_map_known nm name p :
  isSafeAttributeName name = false →
  Map_get (attributeNameMap nm) name = Some p → truthy p = true →
  NameMapper_map nm name = (p, nm).
Proof.
  intros Hunsafe Hget Htruthy. unfold NameMapper_map.
  by rewrite Hunsafe, Hget, Htruthy.
Qed.

(** What a run of calls returns can be read off the table it ends with. *)
Lemma NameMapper_mapAll_results nm names :
  (NameMapper_mapAll nm names).1
  = placeholder_of (attributeNameMap (NameMapper_mapAll nm names).2) <$> names.
Proof.
  revert nm. induction names as [|name names IH]; intros nm; simpl; [done|].
  destruct (NameMapper_map nm name) as [p nm1] eqn:Hmap.
  specialize (IH nm1).
  destruct (NameMapper_mapAll nm1 names) as [ps nm2] eqn:Hall. simpl in *.
  f_equal; [|done]. unfold placeholder_of.
  destruct (isSafeAttributeName name) eqn:Hsafe.
  - unfold NameMapper_map in Hmap. rewrite Hsafe in Hmap. congruence.
  - destruct (NameMapper_map_recorded nm name Hsafe) as [Hrec Htruthy].
    rewrite Hmap in Hrec, Htruthy. simpl in *.
    pose proof (NameMapper_mapAll_preserves nm1 names name p Hrec Htruthy) as Hlater.
    rewrite Hall in Hlater. simpl in Hlater. by rewrite Hlater.
Qed.

End NameMapperFacts.

(** C9. In a name mapping session a safe name is returned as it is and the
    session is unchanged; the placeholder returned for an unsafe name is
    returned again by every later call for that name; and over a session
    the unsafe names get [#attr0], [#attr1], ... in the order in which they
    are first seen, next to the entry [#value] the session starts with. *)
Theorem name_mapping_is_stable `{E : Externals} :
  (∀ (nm : NameMapper) (name : string),
     isSafeAttributeName name = true → NameMapper_map nm name = (name, nm))
  ∧ (∀ (nm : NameMapper) (name : string) (later : list string),
       isSafeAttributeName name = false →
       let first := NameMapper_map nm name in
       let session := (NameMapper_mapAll first.2 later).2 in
       NameMapper_map session name = (first.1, session))
  ∧ (∀ names : list string,
       let run := NameMapper_mapAll createNameMapper names in
       let fresh := firstSeen ["value"] names in
       attributeNameMap run.2
       = ("value", "#value") :: imap (λ i name, (name, "#attr" +:+ pretty i)) fresh
       ∧ nm_currentIndex run.2 = length fresh
       ∧ NoDup fresh
       ∧ run.1 = placeholder_of (attributeNameMap run.2) <$> names).
Proof.
  split_and!.
  - intros nm name Hsafe. unfold NameMapper_map. by rewrite Hsafe.
  - intros nm name later Hunsafe first session.
    destruct (NameMapper_map_recorded nm name Hunsafe) as [Hrec Htruthy].
    apply NameMapper_map_known; [done| |done].
    by apply NameMapper_mapAll_preserves.
  - intros names run fresh.
    pose proof (NameMapper_mapAll_session createNameMapper [] names
                  session_inv_create) as (Htbl & Hidx & Hnd).
    simpl in Htbl, Hidx, Hnd. split_and!; [done | done | |].
    + by apply NoDup_cons in Hnd as [_ ?].
    + apply NameMapper_mapAll_results.
Qed.

(** ** The index actions of the update compiler *)

Section IndexActionFacts.
Context `{E : Externals}.

Lemma forallb_fmap_true {A B : Type} (f : B → bool) (g : A → B) (l : list A) :
  forallb f (g <$> l) = true ↔ ∀ x, x ∈ l → f (g x) = true.
Proof.
  induction l as [|a l IH]; simpl.
  - split; [intros _ x Hx; by apply elem_of_nil in Hx | done].
  - rewrite andb_true_iff, IH. split.
    + intros [Ha Hl] x Hx. apply elem_of_cons in Hx as [->|Hx]; auto.
    + intros Hall. split; [apply Hall; left | intros x Hx; apply Hall; by right].
Qed.


Lemma matched_present updates keyPath :
  matched updates keyPath
  ↔ is_present (findMatchingPath (extractUpdateKeyPaths updates) keyPath) = true.
Proof.
  unfold matched. destruct (findMatchingPath _ _); simpl.
  - split; [done | by eexists].
  - split; [by intros [? ?] | done].
Qed.

Lemma unmatched_absent updates keyPath :
  ¬ matched updates keyPath
  ↔ is_absent (findMatchingPath (extractUpdateKeyPaths updates) keyPath) = true.
Proof.
  unfold matched. destruct (findMatchingPath _ _); simpl.
  - split; [intros Hn; exfalso; apply Hn; by eexists | done].
  - split; [done | by intros _ [? ?]].
Qed.

Lemma is_absent_present {A : Type} (x : option A) :
  is_absent x = negb (is_present x).
Proof. by destruct x. Qed.

(** No key path of the role matches: nothing to do. *)
Lemma createUpdateActionForKey_unmatched collectionName keyType keyPaths
    indexLayout updates :
  (∀ keyPath, keyPath ∈ keyPaths → ¬ matched updates keyPath) →
  createUpdateActionForKey collectionName keyType keyPaths indexLayout updates
  = Ok None.
Proof.
  intros Hnone. unfold createUpdateActionForKey, matchingUpdatePaths_of.
  rewrite (proj2 (forallb_fmap_true is_absent _ keyPaths)); [done|].
  intros keyPath Hin. by apply unmatched_absent, Hnone.
Qed.



End IndexActionFacts.

Section StepFacts.
Context `{E : Externals}.

Lemma pushSetAction_effect c update :
  expressionSetActions (pushSetAction c update)
  = expressionSetActions c ++ [setActionOn c (attributeName update)]
  ∧ expressionDeleteActions (pushSetAction c update) = expressionDeleteActions c
  ∧ nameMapper (pushSetAction c update)
    = (NameMapper_map (nameMapper c) (attributeName update)).2
  ∧ valueMapper (pushSetAction c update)
    = (ValueMapper_map (valueMapper c) (value_of (value update))).2.
Proof.
  unfold pushSetAction, setActionOn.
  by destruct (NameMapper_map (nameMapper c) (attributeName update)).
Qed.

Lemma pushDeleteAction_effect c update :
  expressionDeleteActions (pushDeleteAction c update)
  = expressionDeleteActions c ++ [removeActionOn c (attributeName update)]
  ∧ expressionSetActions (pushDeleteAction c update) = expressionSetActions c
  ∧ nameMapper (pushDeleteAction c update)
    = (NameMapper_map (nameMapper c) (attributeName update)).2
  ∧ valueMapper (pushDeleteAction c update) = valueMapper c.
Proof.
  unfold pushDeleteAction, removeActionOn.
  by destruct (NameMapper_map (nameMapper c) (attributeName update)).
Qed.

Lemma accessPatternLoop_app collection updates aps1 aps2 c :
  accessPatternLoop collection updates (aps1 ++ aps2) c
  = (c1 ← accessPatternLoop collection updates aps1 c;
     accessPatternLoop collection updates aps2 c1).
Proof.
  revert c. induction aps1 as [|ap aps1 IH]; intros c; simpl; [done|].
  destruct (accessPatternStep collection updates ap c) as [c1|e]; simpl; [|done].
  apply IH.
Qed.

(** A pattern whose step always throws makes the loop throw. *)
Lemma accessPatternLoop_throws collection updates aps ap :
  ap ∈ aps →
  (∀ c, is_Throw (accessPatternStep collection updates ap c)) →
  ∀ c, is_Throw (accessPatternLoop collection updates aps c).
Proof.
  intros Hin Hstep. induction aps as [|ap' aps IH]; intros c.
  - by apply elem_of_nil in Hin.
  - simpl. apply elem_of_cons in Hin as [<-|Hin].
    + destruct (Hstep c) as [e ->]. by exists e.
    + destruct (accessPatternStep collection updates ap' c) as [c1|e]; simpl.
      * by apply IH.
      * by exists e.
Qed.

(** A compilation whose access-pattern loop always throws, throws. *)
Lemma updateInternal_request_throws collection key updates aps :
  accessPatterns collection = Some aps →
  (∀ c, is_Throw (accessPatternLoop collection updates aps c)) →
  is_Throw (updateInternal_request collection key updates).
Proof.
  intros Haps Hloop. unfold updateInternal_request.
  case_bool_decide; [by eexists|].
  destruct (updatePathLoop _ _ _ _) as [c1|e]; simpl; [|by eexists].
  unfold mapAccessPatterns. rewrite Haps.
  destruct (Hloop {| nameMapper := nameMapper c1; valueMapper := valueMapper c1;
                     expressionSetActions := []; expressionDeleteActions := [] |})
    as [e ->].
  by eexists.
Qed.

Lemma findCollectionIndex_throws collection index e :
  findCollectionIndex collection index = Throw e →
  e = IndexNotFoundException index.
Proof.
  unfold findCollectionIndex. destruct (findKeys (layout collection)) as [keys|].
  - destruct (find _ keys); congruence.
  - congruence.
Qed.


End StepFacts.



(** ** The primary-field actions *)

Section UpdatePathFacts.
Context `{E : Externals}.

(** The loop stops at the first update path whose value is [undefined]. *)
Lemma updatePathLoop_undefined updates updateKeyPaths entries c :
  (∃ entry, entry ∈ entries ∧ is_undefined (prop_get updates entry.2) = true) →
  ∃ rejected,
    rejected ∈ entries.*2
    ∧ is_undefined (prop_get updates rejected) = true
    ∧ updatePathLoop updates updateKeyPaths entries c
      = Throw (InvalidUpdateValueException rejected "value must not be undefined").
Proof.
  revert c. induction entries as [|[index updatePath] entries IH];
    intros c (entry & Hin & Hundef).
  - by apply elem_of_nil in Hin.
  - simpl. destruct (is_undefined (prop_get updates updatePath)) eqn:Hhere.
    + exists updatePath. split_and!; [left | done | done].
    + apply elem_of_cons in Hin as [->|Hin]; [simpl in Hundef; congruence|].
      destruct (ValueMapper_map (valueMapper c) (prop_get updates updatePath))
        as [valueName vm].
      destruct (NameMapper_mapAll (nameMapper c)
                  (default [] (updateKeyPaths !! index))) as [parts nm].
      edestruct IH as (rejected & Hr & Hu & Hloop); [by exists entry|].
      exists rejected. split_and!; [by right | done | exact Hloop].
Qed.

Lemma imap_pair_snd {A : Type} (l : list A) : (imap pair l).*2 = l.
Proof.
  assert (Hgen : ∀ (f : nat → nat), (imap (λ i x, (f i, x)) l).*2 = l).
  { induction l as [|x l IH]; intros f; simpl; [done|].
    f_equal. apply (IH (f ∘ S)). }
  apply (Hgen id).
Qed.

End UpdatePathFacts.

(** C7. An updates object with an update path whose value is [undefined]
    is rejected with [InvalidUpdateValueException], raised for the first
    such path, and no request is sent to the store. *)
Theorem undefined_update_value_rejected `{E : Externals}
    (ctx : Context) (collection : Collection)
    (key : list (string * AttributeValue)) (updates : Updates)
    (updatePath : string) :
  updatePath ∈ Object_keys updates →
  is_undefined (prop_get updates updatePath) = true →
  ∃ rejected,
    rejected ∈ Object_keys updates
    ∧ is_undefined (prop_get updates rejected) = true
    ∧ updateInternal_request collection key updates
      = Throw (InvalidUpdateValueException rejected "value must not be undefined")
    ∧ updateInternal ctx collection key updates
      = (Throw (InvalidUpdateValueException rejected "value must not be undefined"),
         []).
Proof.
  intros Hin Hundef.
  destruct (updatePathLoop_undefined updates (extractUpdateKeyPaths updates)
              (imap pair (Object_keys updates))
              {| nameMapper := createNameMapper; valueMapper := createValueMapper;
                 expressionSetActions := []; expressionDeleteActions := [] |})
    as (rejected & Hr & Hu & Hloop).
  { apply list_elem_of_lookup in Hin as [i Hi].
    exists (i, updatePath). split; [|done].
    apply list_elem_of_lookup. exists i. by rewrite list_lookup_imap, Hi. }
  rewrite imap_pair_snd in Hr.
  assert (Hreq : updateInternal_request collection key updates
    = Throw (InvalidUpdateValueException rejected "value must not be undefined")).
  { unfold updateInternal_request. case_bool_decide as Hlen.
    - apply length_zero_iff_nil in Hlen. rewrite Hlen in Hin.
      by apply elem_of_nil in Hin.
    - by rewrite Hloop. }
  exists rejected. split_and!; [done | done | done |].
  unfold updateInternal. by rewrite Hreq.
Qed.

Section CompilationOrder.
Context `{E : Externals}.

Lemma NameMapper_mapAll_recorded nm names name :
  name ∈ names → isSafeAttributeName name = false →
  ∃ p, Map_get (attributeNameMap (NameMapper_mapAll nm names).2) name = Some p
       ∧ truthy p = true.
Proof.
  revert nm. induction names as [|n names IH]; intros nm Hin Hunsafe.
  - by apply elem_of_nil in Hin.
  - simpl. destruct (NameMapper_map nm n) as [q nm1] eqn:Hmap.
    destruct (NameMapper_mapAll nm1 names) as [qs nm2] eqn:Hall. simpl.
    apply elem_of_cons in Hin as [->|Hin].
    + destruct (NameMapper_map_recorded nm n Hunsafe) as [Hrec Htruthy].
      rewrite Hmap in Hrec, Htruthy. simpl in *. exists q. split; [|done].
      pose proof (NameMapper_mapAll_preserves nm1 names n q Hrec Htruthy) as Hp.
      by rewrite Hall in Hp.
    + specialize (IH nm1 Hin Hunsafe). by rewrite Hall in IH.
Qed.

Lemma placeholder_of_agree table1 table2 name :
  (isSafeAttributeName name = false →
   ∃ p, Map_get table1 name = Some p ∧ Map_get table2 name = Some p) →
  placeholder_of table1 name = placeholder_of table2 name.
Proof.
  intros Hagree. unfold placeholder_of.
  destruct (isSafeAttributeName name); [done|].
  destruct Hagree as (p & -> & ->); done.
Qed.

(** The effect of a completed run of the loop over the update paths. *)
Lemma updatePathLoop_Ok updates updateKeyPaths entries c c' :
  (∀ index updatePath, (index, updatePath) ∈ entries →
     updateKeyPaths !! index = Some (split_dot updatePath)) →
  updatePathLoop updates updateKeyPaths entries c = Ok c' →
  expressionSetActions c'
  = expressionSetActions c
    ++ imap (λ j entry,
               primaryAction (attributeNameMap (nameMapper c'))
                 (vm_currentIndex (valueMapper c) + j) entry.2) entries
  ∧ expressionDeleteActions c' = expressionDeleteActions c
  ∧ vm_currentIndex (valueMapper c')
    = vm_currentIndex (valueMapper c) + length entries
  ∧ (∀ k p, Map_get (attributeNameMap (nameMapper c)) k = Some p →
            truthy p = true →
            Map_get (attributeNameMap (nameMapper c')) k = Some p).
Proof.
  revert c. induction entries as [|[index updatePath] entries IH];
    intros c Hidx Hloop; simpl in Hloop.
  - injection Hloop as <-. simpl. rewrite app_nil_r, Nat.add_0_r. done.
  - destruct (is_undefined (prop_get updates updatePath)); [done|].
    rewrite (Hidx index updatePath) in Hloop by left. simpl in Hloop.
    destruct (ValueMapper_map (valueMapper c) (prop_get updates updatePath))
      as [valueName vm] eqn:Hvm.
    destruct (NameMapper_mapAll (nameMapper c) (split_dot updatePath))
      as [parts nm] eqn:Hnm.
    apply IH in Hloop as (Hset & Hdel & Hcount & Hmono);
      [|intros i p Hin; apply Hidx; by right].
    simpl in Hset, Hdel, Hcount, Hmono.
    unfold ValueMapper_map in Hvm. injection Hvm as <- <-. simpl in *.
    assert (Hparts : parts
      = placeholder_of (attributeNameMap (nameMapper c')) <$> split_dot updatePath).
    { pose proof (NameMapper_mapAll_results (nameMapper c) (split_dot updatePath))
        as Hres.
      rewrite Hnm in Hres. simpl in Hres. rewrite Hres.
      apply list_fmap_ext. intros i name Hname.
      apply placeholder_of_agree. intros Hunsafe.
      destruct (NameMapper_mapAll_recorded (nameMapper c) (split_dot updatePath)
                  name) as (p & Hp & Htruthy);
        [by eapply list_elem_of_lookup_2 | done |].
      rewrite Hnm in Hp. simpl in Hp. exists p. split; [done|]. by apply Hmono. }
    split_and!.
    + rewrite Hset, <- app_assoc. f_equal. simpl. f_equal.
      * unfold primaryAction. by rewrite Hparts, Nat.add_0_r.
      * apply imap_ext. intros j entry _. simpl. f_equal. lia.
    + done.
    + rewrite Hcount. lia.
    + intros k p Hk Htruthy. apply Hmono; [|done].
      pose proof (NameMapper_mapAll_preserves (nameMapper c)
                    (split_dot updatePath) k p Hk Htruthy) as Hp.
      by rewrite Hnm in Hp.
Qed.

End CompilationOrder.

Section AppendOnly.
Context `{E : Externals}.

Lemma extends_refl c : extends c c.
Proof. by split. Qed.

Lemma extends_trans c1 c2 c3 : extends c1 c2 → extends c2 c3 → extends c1 c3.
Proof. intros [? ?] [? ?]. split; by etrans. Qed.

Lemma pushSetAction_extends c update : extends c (pushSetAction c update).
Proof.
  destruct (pushSetAction_effect c update) as (Hs & Hd & _).
  split; [rewrite Hs; by apply prefix_app_r | by rewrite Hd].
Qed.

Lemma pushDeleteAction_extends c update : extends c (pushDeleteAction c update).
Proof.
  destruct (pushDeleteAction_effect c update) as (Hd & Hs & _).
  split; [by rewrite Hs | rewrite Hd; by apply prefix_app_r].
Qed.

Lemma partitionKeyStep_extends collection updates ap c c' :
  partitionKeyStep collection updates ap c = Ok c' → extends c c'.
Proof.
  unfold partitionKeyStep. case_bool_decide; [|intros [= <-]; apply extends_refl].
  destruct (findCollectionIndex _ _) as [l|e]; simpl; [|done].
  destruct (createUpdateActionForKey _ _ _ _ _) as [[u|]|e]; simpl; [| |done].
  - intros [= <-]. apply pushSetAction_extends.
  - intros [= <-]. apply extends_refl.
Qed.

Lemma sortKeyStep_extends collection updates ap c c' :
  sortKeyStep collection updates ap c = Ok c' → extends c c'.
Proof.
  unfold sortKeyStep. destruct (sortKeys ap) as [ks|];
    [|intros [= <-]; apply extends_refl].
  case_bool_decide; [|intros [= <-]; apply extends_refl].
  destruct (findCollectionIndex _ _) as [l|e]; simpl; [|done].
  destruct (createUpdateActionForKey _ _ _ _ _) as [[u|]|e]; simpl; [| |done].
  - destruct (value u); intros [= <-];
      [apply pushSetAction_extends | apply pushDeleteAction_extends].
  - intros [= <-]. apply extends_refl.
Qed.

Lemma accessPatternStep_extends collection updates ap c c' :
  accessPatternStep collection updates ap c = Ok c' → extends c c'.
Proof.
  unfold accessPatternStep.
  destruct (partitionKeyStep collection updates ap c) as [c1|e] eqn:Hp;
    simpl; [|done].
  intros Hs. eapply extends_trans.
  - by eapply partitionKeyStep_extends.
  - by eapply sortKeyStep_extends.
Qed.

Lemma accessPatternLoop_extends collection updates aps c c' :
  accessPatternLoop collection updates aps c = Ok c' → extends c c'.
Proof.
  revert c. induction aps as [|ap aps IH]; intros c; simpl.
  - intros [= <-]. apply extends_refl.
  - destruct (accessPatternStep collection updates ap c) as [c1|e] eqn:Hstep;
      simpl; [|done].
    intros Hloop. eapply extends_trans.
    + by eapply accessPatternStep_extends.
    + by apply IH.
Qed.

(** A completed loop over [before ++ ap :: after] went through the
    patterns in that order. *)
Lemma accessPatternLoop_split collection updates before ap after c c' :
  accessPatternLoop collection updates (before ++ ap :: after) c = Ok c' →
  ∃ cb ca,
    accessPatternLoop collection updates before c = Ok cb
    ∧ accessPatternStep collection updates ap cb = Ok ca
    ∧ accessPatternLoop collection updates after ca = Ok c'
    ∧ extends cb ca ∧ extends ca c'.
Proof.
  rewrite accessPatternLoop_app.
  destruct (accessPatternLoop collection updates before c) as [cb|e]; simpl;
    [|done].
  destruct (accessPatternStep collection updates ap cb) as [ca|e] eqn:Hstep;
    simpl; [|done].
  intros Hafter. exists cb, ca. split_and!; [done | done | done | |].
  - by eapply accessPatternStep_extends.
  - by eapply accessPatternLoop_extends.
Qed.

Lemma imap_entries {A B : Type} (h : nat → A → B) (l : list A) :
  imap (λ j (entry : nat * A), h j entry.2) (imap pair l) = imap h l.
Proof.
  apply list_eq. intros i. rewrite !list_lookup_imap.
  by destruct (l !! i).
Qed.

End AppendOnly.

(** C8. Compilation is a function of the collection, the key and the
    updates: whatever the context, the store receives exactly the compiled
    request, or nothing when compilation fails. In a compiled request the
    set actions of the primary fields come first, one per update path in
    the order of the updates object and bound to [:value0], [:value1], ...,
    there is no remove action of a primary field, the index actions follow
    in the order in which the access patterns are declared, and the update
    expression and both placeholder tables are read off the lists and the
    sessions so built. *)
Theorem compilation_deterministic_and_ordered `{E : Externals}
    (collection : Collection) (key : list (string * AttributeValue))
    (updates : Updates) :
  (∀ ctx : Context,
     (updateInternal ctx collection key updates).2
     = match updateInternal_request collection key updates with
       | Ok request => [request]
       | Throw _ => []
       end)
  ∧ ∀ request,
      updateInternal_request collection key updates = Ok request →
      ∃ c1 c2,
        updatePathLoop updates (extractUpdateKeyPaths updates)
          (imap pair (Object_keys updates))
          {| nameMapper := createNameMapper; valueMapper := createValueMapper;
             expressionSetActions := []; expressionDeleteActions := [] |}
        = Ok c1
        ∧ mapAccessPatterns collection (nameMapper c1) (valueMapper c1) updates
          = Ok c2
        ∧ expressionSetActions c1
          = imap (λ i entry,
                    primaryAction (attributeNameMap (nameMapper c1)) i entry.1)
                 updates
        ∧ expressionDeleteActions c1 = []
        ∧ UpdateExpression request
          = String_trim
              (updateExpression_of
                 (expressionSetActions c1 ++ expressionSetActions c2)
                 (expressionDeleteActions c2))
        ∧ ExpressionAttributeNames request = NameMapper_get (nameMapper c2)
        ∧ ExpressionAttributeValues request = ValueMapper_get (valueMapper c2)
        ∧ TableName request = tableName (layout collection)
        ∧ Key request = key
        ∧ ∀ before ap after,
            accessPatterns collection = Some (before ++ ap :: after) →
            ∃ cb ca,
              accessPatternLoop collection updates before (indexLoopStart c1)
              = Ok cb
              ∧ accessPatternStep collection updates ap cb = Ok ca
              ∧ accessPatternLoop collection updates after ca = Ok c2
              ∧ extends cb ca ∧ extends ca c2.
Proof.
  split.
  - intros ctx. unfold updateInternal.
    by destruct (updateInternal_request collection key updates).
  - intros request. unfold updateInternal_request.
    case_bool_decide; [done|].
    destruct (updatePathLoop _ _ _ _) as [c1|e] eqn:Hloop; simpl; [|done].
    destruct (mapAccessPatterns _ _ _ _) as [c2|e] eqn:Hmap; simpl; [|done].
    intros [= <-]. simpl. exists c1, c2.
    apply updatePathLoop_Ok in Hloop as (Hset & Hdel & _ & _).
    2:{ intros index updatePath Hin.
        apply list_elem_of_lookup in Hin as [i Hi].
        rewrite list_lookup_imap in Hi.
        destruct (Object_keys updates !! i) as [p|] eqn:Hp; simpl in Hi; [|done].
        injection Hi as <- <-. unfold extractUpdateKeyPaths.
        by rewrite list_lookup_fmap, Hp. }
    simpl in Hset, Hdel.
    split_and!; try done.
    + rewrite Hset.
      rewrite (imap_entries
                 (λ j p, primaryAction (attributeNameMap (nameMapper c1)) j p)).
      unfold Object_keys. by rewrite imap_fmap.
    + by rewrite Hdel.
    + intros before ap after Haps.
      unfold mapAccessPatterns in Hmap. rewrite Haps in Hmap.
      by apply accessPatternLoop_split in Hmap.
Qed.

(** ** Composite sort keys under the assembler of the design document *)

Section SortKeyAssembly.
Context `{E : Externals}.



End SortKeyAssembly.


(** ** The transaction coordinator *)

Module TransactionFacts.
Import Transaction.

Section Coordinator.
Context {Document Condition : Type}.
Context `{EqDecision Document} `{EqDecision Condition}.
Context (document_id : Document → string).
Context (holds : Condition → option Document → bool).
Context (transactionLimit : nat).

Local Abbreviation Request := (TransactionWriteRequest Document Condition).
Local Abbreviation commit := (transactionWrite document_id holds transactionLimit).


(** C5. A batch in which two requests, of whatever kinds, write the same
    [(collection, id)] pair is rejected with
    [TransactionValidationException]; the store is not called and is left
    as it was. *)
Theorem duplicate_target_rejected (store : Store Document Condition)
    (requests : list Request) (token : option string)
    (i j : nat) (first second : Request) :
  i ≠ j →
  requests !! i = Some first →
  requests !! j = Some second →
  target document_id first = target document_id second →
  ∃ message,
    commit store requests token
    = (Throw (TransactionValidationException message), store, []).
Proof.
  intros Hij Hi Hj Htarget. unfold transactionWrite.
  case_bool_decide; [by eexists|].
  rewrite bool_decide_false; [by eexists|].
  intros Hnd. apply Hij.
  eapply NoDup_lookup; [exact Hnd| |]; rewrite list_lookup_fmap.
  - by rewrite Hi.
  - rewrite Hj. simpl. by rewrite Htarget.
Qed.


End Coordinator.
End TransactionFacts.

(** ** The properties at the examples *)

Section Witnesses.
Import Examples.
Existing Instance SpecModel.externals.





(** An [undefined] age is rejected before the store is called. *)
Lemma undefined_update_value_rejected_witness :
  ∃ rejected,
    updateInternal echo users [] undefinedAge
    = (Throw (InvalidUpdateValueException rejected "value must not be undefined"),
       []).
Proof.
  destruct (undefined_update_value_rejected echo users [] undefinedAge "age")
    as (rejected & _ & _ & _ & Hupdate).
  - right. left.
  - reflexivity.
  - by exists rejected.
Defined.

(** The request compiled for an update of [email] and [org]. *)
Lemma compilation_deterministic_and_ordered_witness :
  (updateInternal echo users [] emailAndOrg).2
  = [{| TableName := "User"; Key := []; ReturnValues := "ALL_NEW";
        ExpressionAttributeNames := [("#value", "value")];
        ExpressionAttributeValues :=
          [(":value0", JString "new@x.com");
           (":value1", JObject [("id", JString "o1")]);
           (":value2", JString "users|new@x.com|o1")];
        UpdateExpression :=
          "SET #value.email = :value0, #value.org = :value1, gpk1 = :value2" |}]
  ∧ ∃ c1 c2,
      expressionSetActions c1
      = ["#value.email = :value0"; "#value.org = :value1"]
      ∧ expressionDeleteActions c1 = []
      ∧ mapAccessPatterns users (nameMapper c1) (valueMapper c1) emailAndOrg
        = Ok c2.
Proof.
  destruct (compilation_deterministic_and_ordered users [] emailAndOrg)
    as [Hsent Hordered].
  split.
  - rewrite Hsent. reflexivity.
  - edestruct Hordered as (c1 & c2 & Hloop & Hmap & Hset & Hdel & _);
      [reflexivity|].
    exists c1, c2. injection Hloop as <-. split_and!; [exact Hset | exact Hdel | exact Hmap].
Defined.

(** In a session, [email] is passed through, and [count] and [name] get
    [#attr0] and [#attr1] in the order in which they are first seen. *)
Lemma name_mapping_is_stable_witness :
  NameMapper_map createNameMapper "email" = ("email", createNameMapper)
  ∧ (let first := NameMapper_map createNameMapper "count" in
     let session := (NameMapper_mapAll first.2 ["name"; "email"]).2 in
     NameMapper_map session "count" = ("#attr0", session))
  ∧ attributeNameMap
      (NameMapper_mapAll createNameMapper
         ["count"; "email"; "name"; "count"; "value"]).2
    = [("value", "#value"); ("count", "#attr0"); ("name", "#attr1")]
  ∧ (NameMapper_mapAll createNameMapper
       ["count"; "email"; "name"; "count"; "value"]).1
    = ["#attr0"; "email"; "#attr1"; "#attr0"; "#value"].
Proof.
  destruct name_mapping_is_stable as (Hsafe & Hstable & Hsession).
  split_and!.
  - apply Hsafe. reflexivity.
  - apply (Hstable createNameMapper "count" ["name"; "email"]). reflexivity.
  - destruct (Hsession ["count"; "email"; "name"; "count"; "value"])
      as (Htable & _). exact Htable.
  - destruct (Hsession ["count"; "email"; "name"; "count"; "value"])
      as (_ & _ & _ & Hresults). exact Hresults.
Defined.

(** Two calls with the same value get two references. *)
Lemma value_references_are_fresh_witness :
  (ValueMapper_mapAll createValueMapper [JString "a"; JString "a"]).1
  = [":value0"; ":value1"]
  ∧ Map_get
      (ValueMapper_get
         (ValueMapper_mapAll createValueMapper [JString "a"; JString "a"]).2)
      ":value1"
    = Some (JString "a").
Proof.
  destruct (value_references_are_fresh [JString "a"; JString "a"])
    as (Hrefs & _ & _ & _ & Hbound).
  split.
  - exact Hrefs.
  - destruct (Hbound 1 (JString "a")) as [_ Hget]; [reflexivity | exact Hget].
Defined.

(** A replace and a delete of [test-id-1] in one batch. *)
Lemma duplicate_target_rejected_witness :
  ∃ message,
    commit emptyStore replaceAndDelete None
    = (Throw (TransactionValidationException message), emptyStore, []).
Proof.
  apply (TransactionFacts.duplicate_target_rejected document_id holds 25
           emptyStore replaceAndDelete None 0 1
           (Transaction.Replace "users" ("test-id-1", "Neo") None)
           (Transaction.Delete "users" "test-id-1"));
    [lia | reflexivity | reflexivity | reflexivity].
Defined.


End Witnesses.

(** * Further properties of the update path *)

(** ** Update paths and key paths *)

Lemma split_dot_no_dot (s seg : string) : seg ∈ split_dot s → no_dot seg = true.
Proof.
  revert seg. induction s as [|c s IH]; intros seg; simpl.
  - intros ->%list_elem_of_singleton. done.
  - destruct (Ascii.eqb c ".") eqn:Hc.
    + intros [->|Hin]%elem_of_cons; [done | by apply IH].
    + pose proof (split_dot_nonempty s) as Hne.
      destruct (split_dot s) as [|h t]; [done|].
      intros [->|Hin]%elem_of_cons.
      * simpl. rewrite Hc. simpl. apply IH. left.
      * apply IH. by right.
Qed.

Lemma split_dot_segment (seg : string) :
  no_dot seg = true → split_dot seg = [seg].
Proof.
  induction seg as [|c seg IH]; simpl; [done|].
  intros [Hc Hseg]%andb_true_iff. apply negb_true_iff in Hc. rewrite Hc.
  by rewrite IH.
Qed.

Lemma split_dot_cons (seg rest : string) :
  no_dot seg = true →
  split_dot (seg +:+ String "." rest) = seg :: split_dot rest.
Proof.
  induction seg as [|c seg IH]; simpl; [done|].
  intros [Hc Hseg]%andb_true_iff. apply negb_true_iff in Hc. rewrite Hc.
  by rewrite IH.
Qed.

(** Joining segments without dots and splitting again gives the segments
    back. *)
Lemma split_dot_join (parts : list string) :
  parts ≠ [] → (∀ seg, seg ∈ parts → no_dot seg = true) →
  split_dot (join "." parts) = parts.
Proof.
  unfold join. induction parts as [|seg parts IH]; [done|]. intros _ Hsegs.
  destruct parts as [|seg' parts].
  - simpl. apply split_dot_segment, Hsegs. left.
  - change (String.concat "." (seg :: seg' :: parts))
      with (seg +:+ String "." (String.concat "." (seg' :: parts))).
    rewrite split_dot_cons by (apply Hsegs; left).
    rewrite IH; [done | done |]. intros s Hs. apply Hsegs. by right.
Qed.

(** X11. [extractUpdateKeyPaths] returns one key path per update path, in
    order; no key path is empty, no segment contains a dot, and joining a
    key path with dots gives the update path back, so two update paths
    with the same key path are the same property of the updates object;
    conversely a key path of dot-free segments is what the update path
    obtained by joining it is split into. *)
Theorem extractUpdateKeyPaths_faithful `{E : Externals} (updates : Updates) :
  length (extractUpdateKeyPaths updates) = length updates
  ∧ (∀ i keyPath,
       extractUpdateKeyPaths updates !! i = Some keyPath →
       keyPath ≠ []
       ∧ (∀ seg, seg ∈ keyPath → no_dot seg = true)
       ∧ Object_keys updates !! i = Some (join "." keyPath)
       ∧ split_dot (join "." keyPath) = keyPath)
  ∧ (∀ i j keyPath p q,
       extractUpdateKeyPaths updates !! i = Some keyPath →
       extractUpdateKeyPaths updates !! j = Some keyPath →
       Object_keys updates !! i = Some p →
       Object_keys updates !! j = Some q →
       p = q)
  ∧ (∀ (keyPath : KeyPath) (v : JsValue),
       keyPath ≠ [] → (∀ seg, seg ∈ keyPath → no_dot seg = true) →
       extractUpdateKeyPaths [(join "." keyPath, v)] = [keyPath]).
Proof.
  assert (Hat : ∀ i keyPath,
    extractUpdateKeyPaths updates !! i = Some keyPath →
    ∃ p, Object_keys updates !! i = Some p ∧ keyPath = split_dot p).
  { intros i keyPath Hi. unfold extractUpdateKeyPaths in Hi.
    rewrite list_lookup_fmap in Hi.
    destruct (Object_keys updates !! i) as [p|]; simpl in Hi; [|done].
    injection Hi as <-. by exists p. }
  split_and!.
  - unfold extractUpdateKeyPaths, Object_keys. by rewrite !length_fmap.
  - intros i keyPath Hi. destruct (Hat i keyPath Hi) as (p & Hp & ->).
    split_and!.
    + apply split_dot_nonempty.
    + intros seg. apply split_dot_no_dot.
    + by rewrite join_split_dot.
    + by rewrite join_split_dot.
  - intros i j keyPath p q Hi Hj Hp Hq.
    destruct (Hat i keyPath Hi) as (p' & Hp' & Hsplit).
    destruct (Hat j keyPath Hj) as (q' & Hq' & Hsplit').
    rewrite Hp in Hp'. rewrite Hq in Hq'. injection Hp' as <-. injection Hq' as <-.
    rewrite <- (join_split_dot p), <- (join_split_dot q). congruence.
  - intros keyPath v Hne Hsegs. unfold extractUpdateKeyPaths. simpl.
    by rewrite split_dot_join.
Qed.

(** X9. The value resolved for a key path whose matching update path is
    one of the update paths of the document: the new value of that update
    path when both have the same length, and otherwise what lodash [get]
    finds in it under the segments of the key path that follow the update
    path. *)
Theorem resolved_value_of_match `{E : Externals} (updates : Updates)
    (keyPaths : list KeyPath) (i : nat) (keyPath matching : KeyPath) :
  keyPaths !! i = Some keyPath →
  findMatchingPath (extractUpdateKeyPaths updates) keyPath = Some matching →
  matching ∈ extractUpdateKeyPaths updates →
  ∃ updatePath,
    updatePath ∈ Object_keys updates
    ∧ split_dot updatePath = matching
    ∧ (length keyPath = length matching →
       resolvedValues updates keyPaths !! i
       = Some (prop_get updates updatePath))
    ∧ (length keyPath ≠ length matching →
       resolvedValues updates keyPaths !! i
       = Some (lodash_get (prop_get updates updatePath)
                 (drop (length matching) keyPath))).
Proof.
  intros Hi Hmatch Hin.
  unfold extractUpdateKeyPaths in Hin.
  apply list_elem_of_fmap in Hin as (updatePath & -> & Hkey).
  exists updatePath. split_and!; [done | done | |].
  - intros Hlen. unfold resolvedValues.
    rewrite list_lookup_imap, Hi. simpl. f_equal.
    unfold updateValue_at, matchingUpdatePaths_of.
    rewrite list_lookup_fmap, Hi. simpl. rewrite Hmatch.
    rewrite join_split_dot. by rewrite decide_False by (intros ?; done).
  - intros Hlen. unfold resolvedValues.
    rewrite list_lookup_imap, Hi. simpl. f_equal.
    unfold updateValue_at, matchingUpdatePaths_of.
    rewrite list_lookup_fmap, Hi. simpl. rewrite Hmatch.
    rewrite join_split_dot. by rewrite decide_True.
Qed.

(** ** Looking up the index of an access pattern *)

Lemma find_first {A : Type} (f : A → bool) (l : list A) (x : A) :
  find f l = Some x ↔
  ∃ before after,
    l = before ++ x :: after ∧ f x = true ∧ ∀ y, y ∈ before → f y = false.
Proof.
  induction l as [|a l IH]; simpl.
  - split; [done|]. intros (before & after & Heq & _). by destruct before.
  - destruct (f a) eqn:Hfa.
    + split.
      * intros [= ->]. exists [], l. split_and!; [done | done |].
        intros y Hy. by apply elem_of_nil in Hy.
      * intros (before & after & Heq & Hfx & Hbefore).
        destruct before as [|b before]; simpl in Heq.
        -- by injection Heq as ->.
        -- injection Heq as -> _. rewrite Hbefore in Hfa by left. done.
    + rewrite IH. split.
      * intros (before & after & -> & Hfx & Hbefore).
        exists (a :: before), after. split_and!; [done | done |].
        intros y [->|Hy]%elem_of_cons; auto.
      * intros (before & after & Heq & Hfx & Hbefore).
        destruct before as [|b before]; simpl in Heq.
        -- injection Heq as -> _. congruence.
        -- injection Heq as -> ->. exists before, after.
           split_and!; [done | done |]. intros y Hy. apply Hbefore. by right.
Qed.

Lemma find_none_iff {A : Type} (f : A → bool) (l : list A) :
  find f l = None ↔ ∀ y, y ∈ l → f y = false.
Proof.
  induction l as [|a l IH]; simpl.
  - split; [intros _ y Hy; by apply elem_of_nil in Hy | done].
  - destruct (f a) eqn:Hfa.
    + split; [done|]. intros Hall. rewrite Hall in Hfa by left. done.
    + rewrite IH. split.
      * intros Hall y [->|Hy]%elem_of_cons; auto.
      * intros Hall y Hy. apply Hall. by right.
Qed.

(** X1. [findCollectionIndex] returns the first layout of
    [collection.layout.findKeys] with the index name asked for, and throws
    [IndexNotFoundException], carrying that name, exactly when [findKeys]
    is missing or holds no layout with the name. *)
Theorem findCollectionIndex_first_match `{E : Externals}
    (collection : Collection) (index : string) :
  (∀ indexLayout,
     findCollectionIndex collection index = Ok indexLayout ↔
     ∃ before after,
       findKeys (layout collection) = Some (before ++ indexLayout :: after)
       ∧ indexName indexLayout = index
       ∧ ∀ other, other ∈ before → indexName other ≠ index)
  ∧ (∀ e,
       findCollectionIndex collection index = Throw e ↔
       e = IndexNotFoundException index
       ∧ (findKeys (layout collection) = None
          ∨ ∃ keys, findKeys (layout collection) = Some keys
                    ∧ ∀ other, other ∈ keys → indexName other ≠ index)).
Proof.
  unfold findCollectionIndex.
  destruct (findKeys (layout collection)) as [keys|].
  - destruct (find (λ fk, bool_decide (indexName fk = index)) keys)
      as [found|] eqn:Hfind.
    + apply find_first in Hfind as (before & after & -> & Hname & Hbefore).
      apply bool_decide_eq_true in Hname. split.
      * intros indexLayout. split.
        -- intros [= <-]. exists before, after. split_and!; [done | done |].
           intros other Hother. specialize (Hbefore other Hother).
           by apply bool_decide_eq_false in Hbefore.
        -- intros (before' & after' & [= Heq] & Hname' & Hbefore').
           f_equal.
           assert (Hfind' : find (λ fk, bool_decide (indexName fk = index))
                              (before ++ found :: after) = Some indexLayout).
           { rewrite Heq. apply find_first. exists before', after'.
             split_and!; [done | by apply bool_decide_eq_true |].
             intros y Hy. apply bool_decide_eq_false. by apply Hbefore'. }
           assert (Hfind'' : find (λ fk, bool_decide (indexName fk = index))
                               (before ++ found :: after) = Some found).
           { apply find_first. exists before, after.
             split_and!; [done | by apply bool_decide_eq_true | done]. }
           congruence.
      * intros e. split; [done|]. intros [_ [Hnone|(keys & [= <-] & Hall)]];
          [done|]. exfalso. apply (Hall found); [|done].
        apply elem_of_app. right. left.
    + rewrite find_none_iff in Hfind. split.
      * intros indexLayout. split; [done|].
        intros (before & after & [= ->] & Hname & _). exfalso.
        specialize (Hfind indexLayout). rewrite bool_decide_true in Hfind by done.
        assert (indexLayout ∈ before ++ indexLayout :: after)
          by (apply elem_of_app; right; left).
        by specialize (Hfind H).
      * intros e. split.
        -- intros [= <-]. split; [done|]. right. exists keys. split; [done|].
           intros other Hother. specialize (Hfind other Hother).
           by apply bool_decide_eq_false in Hfind.
        -- by intros [-> _].
  - split.
    + intros indexLayout. split; [done|]. by intros (? & ? & ? & _).
    + intros e. split.
      * intros [= <-]. split; [done | by left].
      * by intros [-> _].
Qed.

(** ** The exceptions of a compilation *)

Section Exceptions.
Context `{E : Externals}.

Lemma forallb_fmap_false_inv {A B : Type} (f : B → bool) (g : A → B)
    (l : list A) :
  forallb f (g <$> l) = false → ∃ x, x ∈ l ∧ f (g x) = false.
Proof.
  induction l as [|a l IH]; simpl; [done|].
  destruct (f (g a)) eqn:Hfa; simpl.
  - intros (x & Hx & Hf)%IH. exists x. split; [by right | done].
  - intros _. exists a. split; [left | done].
Qed.

(** What [createUpdateActionForKey] throws: its own exception for an
    incomplete partition key, or what the assembler throws. *)
Lemma createUpdateActionForKey_Throw collectionName keyType keyPaths
    indexLayout updates e :
  createUpdateActionForKey collectionName keyType keyPaths indexLayout updates
  = Throw e →
  (keyType = KT_partition
   ∧ e = InvalidUpdatesException (all_values_required KT_partition keyPaths)
   ∧ (∃ keyPath, keyPath ∈ keyPaths ∧ matched updates keyPath)
   ∧ (∃ keyPath, keyPath ∈ keyPaths ∧ ¬ matched updates keyPath))
  ∨ assembleIndexedValue keyType collectionName
      (resolvedValues updates keyPaths) = Throw e.
Proof.
  unfold createUpdateActionForKey, matchingUpdatePaths_of.
  destruct (forallb (λ updatePath : option KeyPath, is_absent updatePath) _)
    eqn:Habsent; [done|].
  apply (forallb_fmap_false_inv is_absent) in Habsent as (k1 & Hk1 & Hm1).
  destruct (bool_decide (keyType = KT_partition)) eqn:Hrole; simpl.
  - destruct (forallb (λ updatePath : option KeyPath, is_present updatePath) _)
      eqn:Hpresent; simpl.
    + fold (matchingUpdatePaths_of keyPaths updates).
      fold (resolvedValues updates keyPaths).
      destruct (assembleIndexedValue _ _ _) as [v|e']; simpl; [done|].
      intros [= <-]. by right.
    + apply (forallb_fmap_false_inv is_present) in Hpresent
        as (k2 & Hk2 & Hm2).
      apply bool_decide_eq_true in Hrole. subst keyType.
      intros [= <-]. left. split_and!; [done | done | |].
      * exists k1. split; [done|]. apply matched_present.
        rewrite is_absent_present in Hm1. by apply negb_false_iff in Hm1.
      * exists k2. split; [done|]. apply unmatched_absent.
        by rewrite is_absent_present, Hm2.
  - fold (matchingUpdatePaths_of keyPaths updates).
    fold (resolvedValues updates keyPaths).
    destruct (assembleIndexedValue _ _ _) as [v|e']; simpl; [done|].
    intros [= <-]. by right.
Qed.

Lemma partitionKeyStep_Throw collection updates ap c e :
  partitionKeyStep collection updates ap c = Throw e →
  (e = IndexNotFoundException (ap_indexName ap)
   ∧ is_Throw (findCollectionIndex collection (ap_indexName ap)))
  ∨ (e = InvalidUpdatesException
           (all_values_required KT_partition (partitionKeys ap))
     ∧ (∃ keyPath, keyPath ∈ partitionKeys ap ∧ matched updates keyPath)
     ∧ (∃ keyPath, keyPath ∈ partitionKeys ap ∧ ¬ matched updates keyPath))
  ∨ assembleIndexedValue KT_partition (name collection)
      (resolvedValues updates (partitionKeys ap)) = Throw e.
Proof.
  unfold partitionKeyStep. case_bool_decide; [|done].
  destruct (findCollectionIndex collection (ap_indexName ap)) as [l|e'] eqn:Hl;
    simpl.
  - destruct (createUpdateActionForKey _ _ _ _ _) as [[u|]|e'] eqn:Hcreate;
      simpl; [done | done |].
    intros [= <-].
    apply createUpdateActionForKey_Throw in Hcreate
      as [(_ & -> & Hsome & Hnot)|Hasm]; [right; left | right; right]; done.
  - intros [= <-]. left. split; [by eapply findCollectionIndex_throws | by eexists].
Qed.

Lemma sortKeyStep_Throw collection updates ap c e :
  sortKeyStep collection updates ap c = Throw e →
  (e = IndexNotFoundException (ap_indexName ap)
   ∧ is_Throw (findCollectionIndex collection (ap_indexName ap)))
  ∨ ∃ sortKeys',
      sortKeys ap = Some sortKeys'
      ∧ assembleIndexedValue KT_sort (name collection)
          (resolvedValues updates sortKeys') = Throw e.
Proof.
  unfold sortKeyStep. destruct (sortKeys ap) as [ks|] eqn:Hks; [|done].
  case_bool_decide; [|done].
  destruct (findCollectionIndex collection (ap_indexName ap)) as [l|e'] eqn:Hl;
    simpl.
  - destruct (createUpdateActionForKey _ _ _ _ _) as [[u|]|e'] eqn:Hcreate;
      simpl; [by destruct (value u) | done |].
    intros [= <-].
    apply createUpdateActionForKey_Throw in Hcreate as [(Hrole & _)|Hasm];
      [done|]. right. by exists ks.
  - intros [= <-]. left. split; [by eapply findCollectionIndex_throws | by eexists].
Qed.

(** An exception of the loop is the exception of the step of one of the
    patterns. *)
Lemma accessPatternLoop_Throw collection updates aps c e :
  accessPatternLoop collection updates aps c = Throw e →
  ∃ ap c', ap ∈ aps ∧ accessPatternStep collection updates ap c' = Throw e.
Proof.
  revert c. induction aps as [|ap aps IH]; intros c; simpl; [done|].
  destruct (accessPatternStep collection updates ap c) as [c1|e'] eqn:Hstep;
    simpl.
  - intros (ap' & c' & Hin & Hthrow)%IH. exists ap', c'. split; [by right | done].
  - intros [= <-]. exists ap, c. split; [left | done].
Qed.

Lemma updatePathLoop_Throw updates updateKeyPaths entries c e :
  updatePathLoop updates updateKeyPaths entries c = Throw e →
  ∃ entry,
    entry ∈ entries
    ∧ is_undefined (prop_get updates entry.2) = true
    ∧ e = InvalidUpdateValueException entry.2 "value must not be undefined".
Proof.
  revert c. induction entries as [|[index updatePath] entries IH]; intros c;
    simpl; [done|].
  destruct (is_undefined (prop_get updates updatePath)) eqn:Hundef.
  - intros [= <-]. exists (index, updatePath). split_and!; [left | done | done].
  - destruct (ValueMapper_map (valueMapper c) (prop_get updates updatePath))
      as [valueName vm].
    destruct (NameMapper_mapAll (nameMapper c)
                (default [] (updateKeyPaths !! index))) as [parts nm].
    intros (entry & Hin & Hrest)%IH. exists entry. split; [by right | done].
Qed.

End Exceptions.

(** X3. The exceptions of a compilation. It throws
    [InvalidUpdatesException] for an empty updates object or for an access
    pattern of which some but not all partition key paths match,
    [InvalidUpdateValueException] for an update path whose value is
    [undefined], [IndexNotFoundException] for an access pattern whose index
    is not in the layout, and otherwise only what [assembleIndexedValue]
    throws for the key paths of an access pattern. *)
Theorem compilation_exceptions `{E : Externals} (collection : Collection)
    (key : list (string * AttributeValue)) (updates : Updates)
    (e : Exception) :
  updateInternal_request collection key updates = Throw e →
  (updates = []
   ∧ e = InvalidUpdatesException
           "There must be at least one update path in the updates object")
  ∨ (∃ updatePath,
       updatePath ∈ Object_keys updates
       ∧ is_undefined (prop_get updates updatePath) = true
       ∧ e = InvalidUpdateValueException updatePath
               "value must not be undefined")
  ∨ (∃ aps ap,
       accessPatterns collection = Some aps ∧ ap ∈ aps
       ∧ ((e = IndexNotFoundException (ap_indexName ap)
           ∧ is_Throw (findCollectionIndex collection (ap_indexName ap)))
          ∨ (e = InvalidUpdatesException
                   (all_values_required KT_partition (partitionKeys ap))
             ∧ (∃ keyPath, keyPath ∈ partitionKeys ap ∧ matched updates keyPath)
             ∧ (∃ keyPath, keyPath ∈ partitionKeys ap
                           ∧ ¬ matched updates keyPath))
          ∨ assembleIndexedValue KT_partition (name collection)
              (resolvedValues updates (partitionKeys ap)) = Throw e
          ∨ (∃ sortKeys',
               sortKeys ap = Some sortKeys'
               ∧ assembleIndexedValue KT_sort (name collection)
                   (resolvedValues updates sortKeys') = Throw e))).
Proof.
  unfold updateInternal_request. case_bool_decide as Hlen.
  - intros [= <-]. left. split; [|done].
    unfold Object_keys in Hlen. rewrite length_fmap in Hlen.
    by apply length_zero_iff_nil.
  - destruct (updatePathLoop _ _ _ _) as [c1|e1] eqn:Hloop; simpl.
    + destruct (mapAccessPatterns _ _ _ _) as [c2|e2] eqn:Hmap; simpl; [done|].
      intros [= <-]. right. right.
      unfold mapAccessPatterns in Hmap.
      destruct (accessPatterns collection) as [aps|]; [|done].
      apply accessPatternLoop_Throw in Hmap as (ap & c' & Hin & Hstep).
      exists aps, ap. split_and!; [done | done |].
      unfold accessPatternStep in Hstep.
      destruct (partitionKeyStep collection updates ap c') as [c1'|e1] eqn:Hp;
        simpl in Hstep.
      * apply sortKeyStep_Throw in Hstep as [Hidx|Hasm]; [by left|].
        right. right. by right.
      * injection Hstep as ->.
        apply partitionKeyStep_Throw in Hp as [Hidx|[Hpartial|Hasm]];
          [by left | right; by left | right; right; by left].
    + intros [= <-]. right. left.
      apply updatePathLoop_Throw in Hloop as ([i p] & Hin & Hundef & ->).
      exists p. split_and!; [|done | done].
      apply list_elem_of_lookup in Hin as [j Hj].
      rewrite list_lookup_imap in Hj.
      destruct (Object_keys updates !! j) as [q|] eqn:Hq; simpl in Hj; [|done].
      injection Hj as <- <-. by eapply list_elem_of_lookup_2.
Qed.

(** X2. An access pattern whose index is not in the layout. If it declares
    key paths for either role, its step throws [IndexNotFoundException] for
    every updates object, whether or not an update path matches, and every
    compilation against a collection with the pattern fails. If it declares
    no key path at all, the index is never looked up and the step leaves
    the compilation as it is. *)
Theorem missing_index_rejected `{E : Externals} (collection : Collection)
    (updates : Updates) (ap : AccessPattern) :
  is_Throw (findCollectionIndex collection (ap_indexName ap)) →
  ((partitionKeys ap ≠ [] ∨ ∃ sortKeys', sortKeys ap = Some sortKeys'
                                         ∧ sortKeys' ≠ []) →
   (∀ c, accessPatternStep collection updates ap c
         = Throw (IndexNotFoundException (ap_indexName ap)))
   ∧ (∀ key aps,
        accessPatterns collection = Some aps → ap ∈ aps →
        is_Throw (updateInternal_request collection key updates)))
  ∧ (partitionKeys ap = [] →
     sortKeys ap = None ∨ sortKeys ap = Some [] →
     ∀ c, accessPatternStep collection updates ap c = Ok c).
Proof.
  intros [e He]. pose proof (findCollectionIndex_throws _ _ _ He) as ->.
  split.
  - intros Hkeys.
    assert (Hstep : ∀ c, accessPatternStep collection updates ap c
                         = Throw (IndexNotFoundException (ap_indexName ap))).
    { intros c. unfold accessPatternStep, partitionKeyStep.
      destruct (partitionKeys ap) as [|k ks] eqn:Hpk.
      - rewrite bool_decide_false by (simpl; lia). simpl.
        destruct Hkeys as [?|(sortKeys' & Hsort & Hne)]; [done|].
        unfold sortKeyStep. rewrite Hsort.
        rewrite bool_decide_true by (destruct sortKeys'; simpl; [done | lia]).
        by rewrite He.
      - rewrite bool_decide_true by (simpl; lia). by rewrite He. }
    split; [done|]. intros key aps Haps Hin.
    eapply updateInternal_request_throws; [done|].
    eapply accessPatternLoop_throws; [done|].
    intros c. rewrite Hstep. by eexists.
  - intros Hpk Hsk c. unfold accessPatternStep, partitionKeyStep, sortKeyStep.
    rewrite Hpk. simpl. by destruct Hsk as [->| ->].
Qed.

(** ** Value references across a compilation *)

Section Numbering.
Context `{E : Externals}.

(** Pushing a set action bound to a new reference keeps the numbering and
    adds one entry at the end of the value table. *)
Lemma numbered_push base (c c' : Compilation) (target : string) (v : JsValue) :
  valueMapper c' = (ValueMapper_map (valueMapper c) v).2 →
  expressionSetActions c'
  = expressionSetActions c
    ++ [target +:+ " = " +:+ (ValueMapper_map (valueMapper c) v).1] →
  numbered base c →
  numbered base c'
  ∧ valueMap (valueMapper c')
    = valueMap (valueMapper c)
      ++ [(":value" +:+ pretty (vm_currentIndex (valueMapper c)),
           Converter_input v)].
Proof.
  intros Hvm Hset (Hidx & Hkeys & Hactions).
  assert (Hmap : valueMap (valueMapper c')
    = valueMap (valueMapper c)
      ++ [(":value" +:+ pretty (vm_currentIndex (valueMapper c)),
           Converter_input v)]).
  { rewrite Hvm. simpl. apply Map_set_fresh. rewrite Hkeys.
    apply valueRefs_fresh. }
  split; [|done]. split_and!.
  - rewrite Hvm, Hset. simpl. rewrite length_app. simpl. lia.
  - rewrite Hmap, fmap_app, Hkeys. simpl. rewrite Hvm. simpl.
    by rewrite valueRefs_snoc.
  - intros i action. rewrite Hset. intros Hi.
    apply lookup_app_Some in Hi as [Hi|[Hge Hi]]; [by apply Hactions|].
    apply list_lookup_singleton_Some in Hi as [Hi <-].
    exists target. simpl. do 4 f_equal. lia.
Qed.

Lemma numbered_pushSetAction base c update :
  numbered base c →
  numbered base (pushSetAction c update)
  ∧ valueMap (valueMapper c) `prefix_of`
      valueMap (valueMapper (pushSetAction c update)).
Proof.
  intros Hnum.
  destruct (pushSetAction_effect c update) as (Hset & _ & _ & Hvm).
  destruct (numbered_push base c (pushSetAction c update)
              (NameMapper_map (nameMapper c) (attributeName update)).1
              (value_of (value update)) Hvm Hset Hnum) as [Hnum' Hmap].
  split; [done|]. rewrite Hmap. by apply prefix_app_r.
Qed.

Lemma numbered_pushDeleteAction base c update :
  numbered base c →
  numbered base (pushDeleteAction c update)
  ∧ valueMap (valueMapper c) `prefix_of`
      valueMap (valueMapper (pushDeleteAction c update)).
Proof.
  intros (Hidx & Hkeys & Hactions).
  destruct (pushDeleteAction_effect c update) as (_ & Hset & _ & Hvm).
  split; [|by rewrite Hvm]. unfold numbered. by rewrite Hset, Hvm.
Qed.

Lemma numbered_partitionKeyStep base collection updates ap c c' :
  partitionKeyStep collection updates ap c = Ok c' →
  numbered base c →
  numbered base c'
  ∧ valueMap (valueMapper c) `prefix_of` valueMap (valueMapper c').
Proof.
  unfold partitionKeyStep. case_bool_decide; [|by intros [= <-]].
  destruct (findCollectionIndex _ _) as [l|e]; simpl; [|done].
  destruct (createUpdateActionForKey _ _ _ _ _) as [[u|]|e]; simpl; [| |done].
  - intros [= <-]. apply numbered_pushSetAction.
  - by intros [= <-].
Qed.

Lemma numbered_sortKeyStep base collection updates ap c c' :
  sortKeyStep collection updates ap c = Ok c' →
  numbered base c →
  numbered base c'
  ∧ valueMap (valueMapper c) `prefix_of` valueMap (valueMapper c').
Proof.
  unfold sortKeyStep. destruct (sortKeys ap) as [ks|]; [|by intros [= <-]].
  case_bool_decide; [|by intros [= <-]].
  destruct (findCollectionIndex _ _) as [l|e]; simpl; [|done].
  destruct (createUpdateActionForKey _ _ _ _ _) as [[u|]|e]; simpl; [| |done].
  - destruct (value u); intros [= <-];
      [apply numbered_pushSetAction | apply numbered_pushDeleteAction].
  - by intros [= <-].
Qed.

Lemma numbered_accessPatternLoop base collection updates aps c c' :
  accessPatternLoop collection updates aps c = Ok c' →
  numbered base c →
  numbered base c'
  ∧ valueMap (valueMapper c) `prefix_of` valueMap (valueMapper c').
Proof.
  revert c. induction aps as [|ap aps IH]; intros c; simpl.
  - by intros [= <-].
  - unfold accessPatternStep.
    destruct (partitionKeyStep collection updates ap c) as [c1|e] eqn:Hp;
      simpl; [|done].
    destruct (sortKeyStep collection updates ap c1) as [c2|e] eqn:Hs;
      simpl; [|done].
    intros Hloop Hnum.
    destruct (numbered_partitionKeyStep base _ _ _ _ _ Hp Hnum) as [Hn1 Hp1].
    destruct (numbered_sortKeyStep base _ _ _ _ _ Hs Hn1) as [Hn2 Hp2].
    destruct (IH c2 Hloop Hn2) as [Hn3 Hp3].
    split; [done|]. by do 2 (etrans; [eassumption|]).
Qed.

(** The loop over the update paths adds, for each path in order, one set
    action and the marshalled value of the path. *)
Lemma numbered_updatePathLoop base updates updateKeyPaths entries c c' :
  updatePathLoop updates updateKeyPaths entries c = Ok c' →
  numbered base c →
  numbered base c'
  ∧ length (expressionSetActions c')
    = length (expressionSetActions c) + length entries
  ∧ valueMap (valueMapper c')
    = valueMap (valueMapper c)
      ++ imap (λ j (entry : nat * string),
                 (":value" +:+ pretty (vm_currentIndex (valueMapper c) + j),
                  Converter_input (prop_get updates entry.2))) entries.
Proof.
  revert c. induction entries as [|[index updatePath] entries IH]; intros c;
    simpl.
  - intros [= <-] Hnum. split_and!; [done | lia | by rewrite app_nil_r].
  - destruct (is_undefined (prop_get updates updatePath)); [done|].
    destruct (ValueMapper_map (valueMapper c) (prop_get updates updatePath))
      as [valueName vm] eqn:Hvm.
    destruct (NameMapper_mapAll (nameMapper c)
                (default [] (updateKeyPaths !! index))) as [parts nm].
    intros Hloop Hnum.
    match type of Hloop with
    | updatePathLoop _ _ _ ?mid = _ => set (cmid := mid) in *
    end.
    destruct (numbered_push base c cmid (join "." ("#value" :: parts))
                (prop_get updates updatePath)) as [Hnmid Hmapmid];
      [subst cmid; unfold ValueMapper_map in *; simpl; by injection Hvm as _ <-
      |subst cmid; unfold ValueMapper_map in *; simpl; by injection Hvm as <- _
      |done|].
    destruct (IH cmid Hloop Hnmid) as (Hn' & Hlen & Hmap).
    split_and!; [done | |].
    + rewrite Hlen. subst cmid. simpl. rewrite length_app. simpl. lia.
    + rewrite Hmap, Hmapmid, <- app_assoc. f_equal. simpl.
      rewrite Nat.add_0_r. f_equal.
      apply imap_ext. intros j entry _. simpl.
      replace (vm_currentIndex (valueMapper cmid))
        with (S (vm_currentIndex (valueMapper c))).
      * do 3 f_equal. lia.
      * subst cmid. simpl. unfold ValueMapper_map in Hvm. by injection Hvm as _ <-.
Qed.

Lemma numbered_start : numbered 0 compilationStart.
Proof.
  split_and!; [done | done |]. intros i action Hi. by destruct i.
Qed.

End Numbering.

Section NumberedCompilation.
Context `{E : Externals}.

(** A completed compilation, with the numbering of both of its phases. *)
Lemma compilation_numbered collection key updates request :
  updateInternal_request collection key updates = Ok request →
  ∃ c1 c2,
    updatePathLoop updates (extractUpdateKeyPaths updates)
      (imap pair (Object_keys updates)) compilationStart = Ok c1
    ∧ mapAccessPatterns collection (nameMapper c1) (valueMapper c1) updates
      = Ok c2
    ∧ UpdateExpression request
      = String_trim
          (updateExpression_of
             (expressionSetActions c1 ++ expressionSetActions c2)
             (expressionDeleteActions c1 ++ expressionDeleteActions c2))
    ∧ ExpressionAttributeValues request = valueMap (valueMapper c2)
    ∧ ExpressionAttributeNames request = NameMapper_get (nameMapper c2)
    ∧ numbered 0 c1
    ∧ length (expressionSetActions c1) = length updates
    ∧ valueMap (valueMapper c1)
      = imap (λ i (entry : string * JsValue),
                (":value" +:+ pretty i,
                 Converter_input (prop_get updates entry.1))) updates
    ∧ numbered (length (expressionSetActions c1)) c2
    ∧ valueMap (valueMapper c1) `prefix_of` valueMap (valueMapper c2).
Proof.
  unfold updateInternal_request. case_bool_decide; [done|].
  fold compilationStart.
  destruct (updatePathLoop _ _ _ _) as [c1|e] eqn:Hloop; simpl; [|done].
  destruct (mapAccessPatterns _ _ _ _) as [c2|e] eqn:Hmap; simpl; [|done].
  intros [= <-]. simpl. exists c1, c2.
  destruct (numbered_updatePathLoop 0 _ _ _ _ _ Hloop numbered_start)
    as (Hn1 & Hlen & Hvalues).
  simpl in Hlen, Hvalues.
  assert (Hn2 : numbered (length (expressionSetActions c1)) c2
                ∧ valueMap (valueMapper c1) `prefix_of` valueMap (valueMapper c2)).
  { unfold mapAccessPatterns in Hmap.
    assert (Hstart : numbered (length (expressionSetActions c1))
              {| nameMapper := nameMapper c1; valueMapper := valueMapper c1;
                 expressionSetActions := []; expressionDeleteActions := [] |}).
    { destruct Hn1 as (Hidx & Hkeys & _). split_and!; simpl.
      - rewrite Hidx. lia.
      - done.
      - intros i action Hi. by destruct i. }
    destruct (accessPatterns collection) as [aps|].
    - by destruct (numbered_accessPatternLoop _ _ _ _ _ _ Hmap Hstart).
    - injection Hmap as <-. by split. }
  destruct Hn2 as [Hn2 Hprefix].
  split_and!; try done.
  - unfold ValueMapper_get. rewrite foldl_Map_set; [done|]. simpl.
    destruct Hn2 as (_ & -> & _). apply valueRefs_NoDup.
  - rewrite Hlen, length_imap. unfold Object_keys. by rewrite length_fmap.
  - rewrite Hvalues.
    rewrite (imap_entries
               (λ j p, (":value" +:+ pretty j,
                        Converter_input (prop_get updates p)))).
    unfold Object_keys. by rewrite imap_fmap.
Qed.

End NumberedCompilation.

(** X5. In a compiled request every set action has its own value
    reference. With [c1] the compilation after the loop over the update
    paths and [c2] the one [mapAccessPatterns] returns, the update
    expression is made of the set actions of [c1] followed by those of
    [c2]; [c1] has one set action per update path; the keys of
    [ExpressionAttributeValues] are [:value0], [:value1], ..., one per set
    action of that list and no other; and the [i]-th set action of the list
    assigns [:value<i>]. *)
Theorem value_table_matches_set_actions `{E : Externals}
    (collection : Collection) (key : list (string * AttributeValue))
    (updates : Updates) (request : UpdateItemInput) :
  updateInternal_request collection key updates = Ok request →
  ∃ c1 c2,
    updatePathLoop updates (extractUpdateKeyPaths updates)
      (imap pair (Object_keys updates)) compilationStart = Ok c1
    ∧ mapAccessPatterns collection (nameMapper c1) (valueMapper c1) updates
      = Ok c2
    ∧ UpdateExpression request
      = String_trim
          (updateExpression_of
             (expressionSetActions c1 ++ expressionSetActions c2)
             (expressionDeleteActions c1 ++ expressionDeleteActions c2))
    ∧ length (expressionSetActions c1) = length updates
    ∧ (ExpressionAttributeValues request).*1
      = (λ i, ":value" +:+ pretty i)
          <$> seq 0 (length (expressionSetActions c1 ++ expressionSetActions c2))
    ∧ ∀ i action,
        (expressionSetActions c1 ++ expressionSetActions c2) !! i = Some action →
        ∃ target, action = target +:+ " = " +:+ ":value" +:+ pretty i.
Proof.
  intros Hreq.
  destruct (compilation_numbered _ _ _ _ Hreq)
    as (c1 & c2 & Hloop & Hmap & Hexpr & Hvalues & _ & Hn1 & Hlen & _ & Hn2 & _).
  exists c1, c2.
  split_and!; [done | done | done | done | |].
  - rewrite Hvalues. destruct Hn2 as (Hidx & -> & _).
    rewrite Hidx, length_app. done.
  - intros i action Hi.
    apply lookup_app_Some in Hi as [Hi|[Hge Hi]].
    + destruct Hn1 as (_ & _ & Hactions). by apply Hactions in Hi.
    + destruct Hn2 as (_ & _ & Hactions). apply Hactions in Hi as [target ->].
      exists target. do 4 f_equal. lia.
Qed.

(** X6. In a compiled request the reference of the [i]-th update path is
    bound to the marshalled new value of that path: the index actions that
    come later never rebind it. *)
Theorem update_values_bound `{E : Externals}
    (collection : Collection) (key : list (string * AttributeValue))
    (updates : Updates) (request : UpdateItemInput) :
  updateInternal_request collection key updates = Ok request →
  ∀ i updatePath,
    Object_keys updates !! i = Some updatePath →
    Map_get (ExpressionAttributeValues request) (":value" +:+ pretty i)
    = Some (Converter_input (prop_get updates updatePath)).
Proof.
  intros Hreq i updatePath Hi.
  destruct (compilation_numbered _ _ _ _ Hreq)
    as (c1 & c2 & _ & _ & _ & Hvalues & _ & _ & _ & Hmap1 & Hn2 & Hprefix).
  rewrite Hvalues. apply Map_get_elem.
  - destruct Hn2 as (_ & -> & _). apply valueRefs_NoDup.
  - destruct Hprefix as [added ->]. apply elem_of_app. left.
    rewrite Hmap1. apply list_elem_of_lookup. exists i.
    rewrite list_lookup_imap.
    unfold Object_keys in Hi. rewrite list_lookup_fmap in Hi.
    apply fmap_Some in Hi as ([p v] & Hup & ->). by rewrite Hup.
Qed.

(** ** How many index actions, and of which kind *)

Section ActionCounts.
Context `{E : Externals}.

Lemma partitionKeyStep_counts collection updates ap c c' :
  partitionKeyStep collection updates ap c = Ok c' →
  expressionDeleteActions c' = expressionDeleteActions c
  ∧ (length (expressionSetActions c') ≤ S (length (expressionSetActions c)))%nat.
Proof.
  unfold partitionKeyStep. case_bool_decide; [|intros [= <-]; split; [done|lia]].
  destruct (findCollectionIndex _ _) as [l|e]; simpl; [|done].
  destruct (createUpdateActionForKey _ _ _ _ _) as [[u|]|e]; simpl; [| |done].
  - intros [= <-]. destruct (pushSetAction_effect c u) as (-> & -> & _).
    split; [done|]. rewrite length_app. simpl. lia.
  - intros [= <-]. split; [done|lia].
Qed.

Lemma sortKeyStep_counts collection updates ap c c' :
  sortKeyStep collection updates ap c = Ok c' →
  (length (expressionSetActions c') + length (expressionDeleteActions c')
   ≤ S (length (expressionSetActions c) + length (expressionDeleteActions c)))%nat
  ∧ (length (expressionSetActions c) ≤ length (expressionSetActions c'))%nat
  ∧ (length (expressionDeleteActions c) ≤ length (expressionDeleteActions c'))%nat
  ∧ (sortKeys ap = None ∨ sortKeys ap = Some [] → c' = c).
Proof.
  unfold sortKeyStep. destruct (sortKeys ap) as [ks|] eqn:Hks;
    [|intros [= <-]; split_and!; [lia | lia | lia | done]].
  case_bool_decide as Hpos; [|intros [= <-]; split_and!; [lia | lia | lia | done]].
  assert (Hne : ¬ (@None (list KeyPath) = Some ks ∨ Some ks = Some [])).
  { intros [?|[= ->]]; [done | simpl in Hpos; lia]. }
  destruct (findCollectionIndex _ _) as [l|e]; simpl; [|done].
  destruct (createUpdateActionForKey _ _ _ _ _) as [[u|]|e]; simpl; [| |done].
  - destruct (value u); intros [= <-].
    + destruct (pushSetAction_effect c u) as (-> & -> & _).
      rewrite length_app. simpl.
      split_and!; [lia | lia | lia | intros [?|?]; exfalso; apply Hne; auto].
    + destruct (pushDeleteAction_effect c u) as (-> & -> & _).
      rewrite length_app. simpl.
      split_and!; [lia | lia | lia | intros [?|?]; exfalso; apply Hne; auto].
  - intros [= <-]. split_and!; [lia | lia | lia | done].
Qed.

Lemma accessPatternLoop_counts collection updates aps c c' :
  accessPatternLoop collection updates aps c = Ok c' →
  (length (expressionSetActions c') + length (expressionDeleteActions c')
   ≤ length (expressionSetActions c) + length (expressionDeleteActions c)
     + 2 * length aps)%nat
  ∧ (length (expressionDeleteActions c')
     ≤ length (expressionDeleteActions c) + length aps)%nat
  ∧ ((∀ ap, ap ∈ aps → sortKeys ap = None ∨ sortKeys ap = Some []) →
     expressionDeleteActions c' = expressionDeleteActions c).
Proof.
  revert c. induction aps as [|ap aps IH]; intros c; simpl.
  - intros [= <-]. split_and!; [lia | lia | done].
  - unfold accessPatternStep.
    destruct (partitionKeyStep collection updates ap c) as [c1|e] eqn:Hp;
      simpl; [|done].
    destruct (sortKeyStep collection updates ap c1) as [c2|e] eqn:Hs;
      simpl; [|done].
    intros Hloop.
    destruct (partitionKeyStep_counts _ _ _ _ _ Hp) as (Hd1 & Hs1).
    destruct (sortKeyStep_counts _ _ _ _ _ Hs) as (Hsum2 & Hs2 & Hd2 & Hsame2).
    destruct (IH c2 Hloop) as (Hsum3 & Hd3 & Hsame3).
    rewrite Hd1 in *. split_and!; [lia | lia |].
    intros Hnosort. rewrite Hsame3 by (intros; apply Hnosort; by right).
    rewrite (Hsame2 (Hnosort ap ltac:(left))). done.
Qed.

Lemma append_empty_r (s : string) : s +:+ "" = s.
Proof.
  induction s as [|c s IH]; [done|].
  change (String c (s +:+ "") = String c s). by f_equal.
Qed.

End ActionCounts.

(** X7. Index actions are few and remove actions come from sort keys
    only. With [c1] the compilation after the loop over the update paths
    and [c2] the one [mapAccessPatterns] returns, the update expression is
    made of the set and remove actions of [c1] followed by those of [c2];
    [c1] has one set action per update path and no remove action; [c2] has
    at most two actions for each access pattern of the collection and at
    most one remove action for each; and when no pattern of the collection
    declares sort key paths [c2] has no remove action, so that the update
    expression is the SET clause of the set actions alone. *)
Theorem remove_actions_only_from_sort_keys `{E : Externals}
    (collection : Collection) (key : list (string * AttributeValue))
    (updates : Updates) (request : UpdateItemInput) :
  updateInternal_request collection key updates = Ok request →
  ∃ c1 c2,
    updatePathLoop updates (extractUpdateKeyPaths updates)
      (imap pair (Object_keys updates)) compilationStart = Ok c1
    ∧ mapAccessPatterns collection (nameMapper c1) (valueMapper c1) updates
      = Ok c2
    ∧ UpdateExpression request
      = String_trim
          (updateExpression_of
             (expressionSetActions c1 ++ expressionSetActions c2)
             (expressionDeleteActions c1 ++ expressionDeleteActions c2))
    ∧ length (expressionSetActions c1) = length updates
    ∧ expressionDeleteActions c1 = []
    ∧ (length (expressionSetActions c2) + length (expressionDeleteActions c2)
       ≤ 2 * length (default [] (accessPatterns collection)))%nat
    ∧ (length (expressionDeleteActions c2)
       ≤ length (default [] (accessPatterns collection)))%nat
    ∧ ((∀ ap, ap ∈ default [] (accessPatterns collection) →
              sortKeys ap = None ∨ sortKeys ap = Some []) →
       expressionDeleteActions c2 = []
       ∧ UpdateExpression request
         = String_trim
             (" SET "
              +:+ join ", "
                    (expressionSetActions c1 ++ expressionSetActions c2))).
Proof.
  intros Hreq.
  destruct (compilation_numbered _ _ _ _ Hreq)
    as (c1 & c2 & Hloop & Hmap & Hexpr & _ & _ & _ & Hlen & _).
  assert (Hdel1 : expressionDeleteActions c1 = []).
  { pose proof Hloop as Hloop'.
    apply updatePathLoop_Ok in Hloop' as (_ & Hdel & _); [done|].
    intros index updatePath Hin.
    apply list_elem_of_lookup in Hin as [i Hi].
    rewrite list_lookup_imap in Hi.
    destruct (Object_keys updates !! i) as [p|] eqn:Hp; simpl in Hi; [|done].
    injection Hi as <- <-. unfold extractUpdateKeyPaths.
    by rewrite list_lookup_fmap, Hp. }
  assert (Hcounts :
    (length (expressionSetActions c2) + length (expressionDeleteActions c2)
     ≤ 2 * length (default [] (accessPatterns collection)))%nat
    ∧ (length (expressionDeleteActions c2)
       ≤ length (default [] (accessPatterns collection)))%nat
    ∧ ((∀ ap, ap ∈ default [] (accessPatterns collection) →
              sortKeys ap = None ∨ sortKeys ap = Some []) →
       expressionDeleteActions c2 = [])).
  { pose proof Hmap as Hmap'. unfold mapAccessPatterns in Hmap'.
    destruct (accessPatterns collection) as [aps|]; simpl.
    - apply accessPatternLoop_counts in Hmap' as (Hsum & Hd & Hsame).
      simpl in *. split_and!; [lia | lia | done].
    - injection Hmap' as <-. simpl. split_and!; [lia | lia | done]. }
  destruct Hcounts as (Hsum & Hd & Hnone).
  exists c1, c2.
  split_and!; [done | done | done | done | done | done | done |].
  intros Hnosort. split; [by apply Hnone|].
  rewrite Hexpr, Hdel1, (Hnone Hnosort). f_equal. unfold updateExpression_of.
  assert (length updates ≠ 0).
  { intros Hzero. unfold updateInternal_request in Hreq.
    rewrite bool_decide_true in Hreq; [done|].
    unfold Object_keys. by rewrite length_fmap. }
  rewrite bool_decide_true by (rewrite length_app; lia).
  rewrite bool_decide_false by (simpl; lia).
  apply append_empty_r.
Qed.

(** ** Updates that touch no indexed field *)

Section Unindexed.
Context `{E : Externals}.

Lemma NameMapper_mapAll_app nm names1 names2 :
  NameMapper_mapAll nm (names1 ++ names2)
  = ((NameMapper_mapAll nm names1).1
     ++ (NameMapper_mapAll (NameMapper_mapAll nm names1).2 names2).1,
     (NameMapper_mapAll (NameMapper_mapAll nm names1).2 names2).2).
Proof.
  revert nm. induction names1 as [|name names1 IH]; intros nm; simpl.
  - by destruct (NameMapper_mapAll nm names2).
  - destruct (NameMapper_map nm name) as [p nm1]. rewrite IH.
    destruct (NameMapper_mapAll nm1 names1) as [ps nm2]. simpl.
    by destruct (NameMapper_mapAll nm2 names2).
Qed.

(** The name session after the loop over the update paths has seen the
    segments of all update paths, in order. *)
Lemma updatePathLoop_names updates updateKeyPaths entries c c' :
  (∀ index updatePath, (index, updatePath) ∈ entries →
     updateKeyPaths !! index = Some (split_dot updatePath)) →
  updatePathLoop updates updateKeyPaths entries c = Ok c' →
  nameMapper c'
  = (NameMapper_mapAll (nameMapper c)
       (concat ((λ entry : nat * string, split_dot entry.2) <$> entries))).2.
Proof.
  revert c. induction entries as [|[index updatePath] entries IH];
    intros c Hidx; simpl.
  - by intros [= <-].
  - destruct (is_undefined (prop_get updates updatePath)); [done|].
    rewrite (Hidx index updatePath) by left. simpl.
    destruct (ValueMapper_map (valueMapper c) (prop_get updates updatePath))
      as [valueName vm].
    destruct (NameMapper_mapAll (nameMapper c) (split_dot updatePath))
      as [parts nm] eqn:Hnm.
    intros Hloop. apply IH in Hloop; [|intros i p Hin; apply Hidx; by right].
    simpl in Hloop. rewrite Hloop, NameMapper_mapAll_app. simpl.
    by rewrite Hnm.
Qed.

(** The loop over the update paths completes when no value is
    [undefined]. *)
Lemma updatePathLoop_total updates updateKeyPaths entries c :
  (∀ entry, entry ∈ entries → is_undefined (prop_get updates entry.2) = false) →
  is_Ok (updatePathLoop updates updateKeyPaths entries c).
Proof.
  revert c. induction entries as [|[index updatePath] entries IH];
    intros c Hdef; simpl.
  - by eexists.
  - pose proof (Hdef (index, updatePath) ltac:(left)) as Hhere.
    simpl in Hhere. rewrite Hhere.
    destruct (ValueMapper_map (valueMapper c) (prop_get updates updatePath))
      as [valueName vm].
    destruct (NameMapper_mapAll (nameMapper c)
                (default [] (updateKeyPaths !! index))) as [parts nm].
    apply IH. intros entry Hin. apply Hdef. by right.
Qed.

(** The loop over access patterns none of which is matched, all of whose
    indexes are in the layout, leaves the compilation as it is. *)
Lemma accessPatternLoop_unmatched collection updates aps c :
  (∀ ap, ap ∈ aps →
     is_Ok (findCollectionIndex collection (ap_indexName ap))
     ∧ (∀ keyPath, keyPath ∈ partitionKeys ap → ¬ matched updates keyPath)
     ∧ (∀ sortKeys' keyPath,
          sortKeys ap = Some sortKeys' → keyPath ∈ sortKeys' →
          ¬ matched updates keyPath)) →
  accessPatternLoop collection updates aps c = Ok c.
Proof.
  induction aps as [|ap aps IH]; intros Hall; simpl; [done|].
  destruct (Hall ap ltac:(left)) as ([l Hl] & Hp & Hs).
  assert (Hstep : accessPatternStep collection updates ap c = Ok c).
  { unfold accessPatternStep, partitionKeyStep, sortKeyStep. rewrite Hl. simpl.
    rewrite createUpdateActionForKey_unmatched by done. simpl.
    assert (Hfirst : (if bool_decide (0 < length (partitionKeys ap))
                      then Ok c else Ok c) = Ok c) by (by case_bool_decide).
    rewrite Hfirst. simpl.
    destruct (sortKeys ap) as [ks|] eqn:Hks; [|done].
    rewrite createUpdateActionForKey_unmatched by (intros; by eapply Hs).
    clear Hfirst. simpl. by case_bool_decide. }
  rewrite Hstep. simpl. apply IH. intros ap' Hin. apply Hall. by right.
Qed.

End Unindexed.

(** X4. An update that touches no indexed field. For a non-empty updates
    object without [undefined] values and a collection none of whose access
    patterns has a matching key path (their indexes being in the layout),
    the compilation succeeds; the update expression is the SET clause of
    the update paths alone, in order, the value table has exactly the
    marshalled values of the update paths, the name table is the one of a
    session that has seen the segments of the update paths, and the store
    is called once, its answer unmarshalled and unwrapped. *)
Theorem update_of_unindexed_fields `{E : Externals}
    (collection : Collection) (key : list (string * AttributeValue))
    (updates : Updates) :
  updates ≠ [] →
  (∀ updatePath, updatePath ∈ Object_keys updates →
     is_undefined (prop_get updates updatePath) = false) →
  (∀ ap, ap ∈ default [] (accessPatterns collection) →
     is_Ok (findCollectionIndex collection (ap_indexName ap))
     ∧ (∀ keyPath, keyPath ∈ partitionKeys ap → ¬ matched updates keyPath)
     ∧ (∀ sortKeys' keyPath,
          sortKeys ap = Some sortKeys' → keyPath ∈ sortKeys' →
          ¬ matched updates keyPath)) →
  let session :=
    (NameMapper_mapAll createNameMapper
       (concat (split_dot <$> Object_keys updates))).2 in
  ∃ request,
    updateInternal_request collection key updates = Ok request
    ∧ UpdateExpression request
      = String_trim
          (" SET "
           +:+ join ", "
                 (imap (λ i (entry : string * JsValue),
                          primaryAction (attributeNameMap session) i entry.1)
                       updates))
    ∧ ExpressionAttributeNames request = NameMapper_get session
    ∧ ExpressionAttributeValues request
      = imap (λ i (entry : string * JsValue),
                (":value" +:+ pretty i,
                 Converter_input (prop_get updates entry.1))) updates
    ∧ ∀ ctx : Context,
        updateInternal ctx collection key updates
        = (attributes ← ddb_updateItem ctx request;
           Ok (unwrap (Converter_unmarshall attributes)),
           [request]).
Proof.
  intros Hne Hdef Hunmatched session.
  assert (Hidx : ∀ index updatePath,
    (index, updatePath) ∈ imap pair (Object_keys updates) →
    extractUpdateKeyPaths updates !! index = Some (split_dot updatePath)).
  { intros index updatePath Hin.
    apply list_elem_of_lookup in Hin as [i Hi].
    rewrite list_lookup_imap in Hi.
    destruct (Object_keys updates !! i) as [p|] eqn:Hp; simpl in Hi; [|done].
    injection Hi as <- <-. unfold extractUpdateKeyPaths.
    by rewrite list_lookup_fmap, Hp. }
  destruct (updatePathLoop_total updates (extractUpdateKeyPaths updates)
              (imap pair (Object_keys updates)) compilationStart) as [c1 Hloop].
  { intros [i p] Hin. apply Hdef. simpl.
    rewrite <- (imap_pair_snd (Object_keys updates)).
    apply list_elem_of_fmap. by exists (i, p). }
  assert (Hmap : mapAccessPatterns collection (nameMapper c1) (valueMapper c1)
                   updates = Ok (indexLoopStart c1)).
  { unfold mapAccessPatterns.
    destruct (accessPatterns collection) as [aps|]; [|done].
    by apply accessPatternLoop_unmatched. }
  assert (Hreq : updateInternal_request collection key updates
    = Ok {| TableName := tableName (layout collection); Key := key;
            ReturnValues := "ALL_NEW";
            ExpressionAttributeNames := NameMapper_get (nameMapper c1);
            ExpressionAttributeValues := ValueMapper_get (valueMapper c1);
            UpdateExpression :=
              String_trim
                (updateExpression_of
                   (expressionSetActions c1 ++ [])
                   (expressionDeleteActions c1 ++ [])) |}).
  { unfold updateInternal_request. rewrite bool_decide_false.
    - fold compilationStart. rewrite Hloop. simpl. by rewrite Hmap.
    - unfold Object_keys. rewrite length_fmap. by destruct updates. }
  eexists. split; [exact Hreq|]. simpl.
  destruct (compilation_numbered _ _ _ _ Hreq)
    as (c1' & c2' & Hloop' & Hmap' & _ & Hvalues & _ & _ & Hlen & Hmap1 & _).
  rewrite Hloop in Hloop'. injection Hloop' as <-.
  rewrite Hmap in Hmap'. injection Hmap' as <-.
  pose proof (updatePathLoop_names _ _ _ _ _ Hidx Hloop) as Hnames.
  simpl in Hnames.
  assert (Hsession : nameMapper c1 = session).
  { rewrite Hnames. unfold session. do 2 f_equal.
    rewrite <- (imap_pair_snd (Object_keys updates)) at 2.
    by rewrite <- list_fmap_compose. }
  apply updatePathLoop_Ok in Hloop as (Hset & Hdel & _); [|done].
  simpl in Hset, Hdel.
  split_and!.
  - f_equal. rewrite !app_nil_r, Hdel. unfold updateExpression_of.
    rewrite bool_decide_true by (rewrite Hlen; by destruct updates).
    rewrite bool_decide_false by (simpl; lia).
    rewrite append_empty_r. do 2 f_equal. rewrite Hset, Hsession.
    rewrite (imap_entries
               (λ j p, primaryAction (attributeNameMap session) j p)).
    unfold Object_keys. by rewrite imap_fmap.
  - by rewrite Hsession.
  - simpl in Hvalues. by rewrite Hvalues, Hmap1.
  - intros ctx. unfold updateInternal. by rewrite Hreq.
Qed.

(** ** Names across a compilation *)

Section NamesAcrossPhases.
Context `{E : Externals}.

Lemma keeps_names_refl c : keeps_names c c.
Proof. by intros k p. Qed.

Lemma keeps_names_trans c1 c2 c3 :
  keeps_names c1 c2 → keeps_names c2 c3 → keeps_names c1 c3.
Proof. intros H12 H23 k p Hk Hp. apply H23; [by apply H12 | done]. Qed.

Lemma keeps_names_pushSetAction c update :
  keeps_names c (pushSetAction c update).
Proof.
  destruct (pushSetAction_effect c update) as (_ & _ & Hnm & _).
  intros k p Hk Hp. rewrite Hnm. by apply NameMapper_map_preserves.
Qed.

Lemma keeps_names_pushDeleteAction c update :
  keeps_names c (pushDeleteAction c update).
Proof.
  destruct (pushDeleteAction_effect c update) as (_ & _ & Hnm & _).
  intros k p Hk Hp. rewrite Hnm. by apply NameMapper_map_preserves.
Qed.

Lemma keeps_names_accessPatternLoop collection updates aps c c' :
  accessPatternLoop collection updates aps c = Ok c' → keeps_names c c'.
Proof.
  revert c. induction aps as [|ap aps IH]; intros c; simpl.
  - intros [= <-]. apply keeps_names_refl.
  - unfold accessPatternStep.
    destruct (partitionKeyStep collection updates ap c) as [c1|e] eqn:Hp;
      simpl; [|done].
    destruct (sortKeyStep collection updates ap c1) as [c2|e] eqn:Hs;
      simpl; [|done].
    intros Hloop.
    assert (H1 : keeps_names c c1).
    { unfold partitionKeyStep in Hp.
      case_bool_decide; [|injection Hp as <-; apply keeps_names_refl].
      destruct (findCollectionIndex _ _) as [l|e]; simpl in Hp; [|done].
      destruct (createUpdateActionForKey _ _ _ _ _) as [[u|]|e]; simpl in Hp;
        [| |done]; injection Hp as <-;
        [apply keeps_names_pushSetAction | apply keeps_names_refl]. }
    assert (H2 : keeps_names c1 c2).
    { unfold sortKeyStep in Hs.
      destruct (sortKeys ap) as [ks|]; [|injection Hs as <-; apply keeps_names_refl].
      case_bool_decide; [|injection Hs as <-; apply keeps_names_refl].
      destruct (findCollectionIndex _ _) as [l|e]; simpl in Hs; [|done].
      destruct (createUpdateActionForKey _ _ _ _ _) as [[u|]|e]; simpl in Hs;
        [| |done].
      - destruct (value u); injection Hs as <-;
          [apply keeps_names_pushSetAction | apply keeps_names_pushDeleteAction].
      - injection Hs as <-. apply keeps_names_refl. }
    eapply keeps_names_trans; [exact H1|].
    eapply keeps_names_trans; [exact H2 | by apply IH].
Qed.

(** The set action of an update path whose segments are all safe. *)
Lemma primaryAction_safe table i updatePath :
  (∀ seg, seg ∈ split_dot updatePath → isSafeAttributeName seg = true) →
  primaryAction table i updatePath
  = "#value." +:+ updatePath +:+ " = " +:+ ":value" +:+ pretty i.
Proof.
  intros Hsafe. unfold primaryAction.
  assert (Hparts : placeholder_of table <$> split_dot updatePath
                   = split_dot updatePath).
  { rewrite <- (list_fmap_id (split_dot updatePath)) at 2.
    apply list_fmap_ext. intros j seg Hseg. unfold placeholder_of.
    by rewrite Hsafe by (by eapply list_elem_of_lookup_2). }
  rewrite Hparts.
  pose proof (join_split_dot updatePath) as Hjoin.
  pose proof (split_dot_nonempty updatePath) as Hne.
  unfold join in *. destruct (split_dot updatePath) as [|h t]; [done|].
  change (String.concat "." ("#value" :: h :: t))
    with ("#value." +:+ String.concat "." (h :: t)).
  by rewrite Hjoin.
Qed.

End NamesAcrossPhases.

(** X12. The placeholders of the primary set actions are those of the name
    table handed to the store. In a compiled request
    [ExpressionAttributeNames] is the inverse of a table under which the
    primary set actions are written, which has an entry, never rebound by
    the index actions that follow, for every unsafe segment of every update
    path. *)
Theorem primary_names_in_final_table `{E : Externals}
    (collection : Collection) (key : list (string * AttributeValue))
    (updates : Updates) (request : UpdateItemInput) :
  updateInternal_request collection key updates = Ok request →
  ∃ table indexSetActions deleteActions,
    ExpressionAttributeNames request = invertMap table
    ∧ UpdateExpression request
      = String_trim
          (updateExpression_of
             (imap (λ i (entry : string * JsValue),
                      primaryAction table i entry.1) updates
              ++ indexSetActions)
             deleteActions)
    ∧ Map_get table "value" = Some "#value"
    ∧ ∀ updatePath seg,
        updatePath ∈ Object_keys updates → seg ∈ split_dot updatePath →
        isSafeAttributeName seg = false →
        ∃ placeholder,
          Map_get table seg = Some placeholder ∧ truthy placeholder = true.
Proof.
  intros Hreq.
  destruct (compilation_numbered _ _ _ _ Hreq)
    as (c1 & c2 & Hloop & Hmap & Hexpr & _ & Hnames & _).
  assert (Hidx : ∀ index updatePath,
    (index, updatePath) ∈ imap pair (Object_keys updates) →
    extractUpdateKeyPaths updates !! index = Some (split_dot updatePath)).
  { intros index updatePath Hin.
    apply list_elem_of_lookup in Hin as [i Hi].
    rewrite list_lookup_imap in Hi.
    destruct (Object_keys updates !! i) as [p|] eqn:Hp; simpl in Hi; [|done].
    injection Hi as <- <-. unfold extractUpdateKeyPaths.
    by rewrite list_lookup_fmap, Hp. }
  assert (Hkeeps : keeps_names c1 c2).
  { unfold mapAccessPatterns in Hmap.
    destruct (accessPatterns collection) as [aps|].
    - apply keeps_names_accessPatternLoop in Hmap. exact Hmap.
    - injection Hmap as Heq. rewrite <- Heq. by intros k p Hk Hp. }
  pose proof (updatePathLoop_names _ _ _ _ _ Hidx Hloop) as Hsession.
  pose proof Hloop as Hloop'.
  apply updatePathLoop_Ok in Hloop' as (Hset & Hdel & _ & Hmono); [|done].
  simpl in Hset, Hdel, Hmono, Hsession.
  assert (Hrecorded : ∀ updatePath seg,
    updatePath ∈ Object_keys updates → seg ∈ split_dot updatePath →
    isSafeAttributeName seg = false →
    ∃ placeholder,
      Map_get (attributeNameMap (nameMapper c1)) seg = Some placeholder
      ∧ truthy placeholder = true).
  { intros updatePath seg Hp Hseg Hunsafe. rewrite Hsession.
    apply NameMapper_mapAll_recorded; [|done].
    apply list_elem_of_In, in_concat. exists (split_dot updatePath).
    split; [|by apply list_elem_of_In]. apply list_elem_of_In.
    apply list_elem_of_fmap.
    apply list_elem_of_lookup in Hp as [i Hi].
    exists (i, updatePath). split; [done|].
    apply list_elem_of_lookup. exists i. by rewrite list_lookup_imap, Hi. }
  exists (attributeNameMap (nameMapper c2)), (expressionSetActions c2),
         (expressionDeleteActions c1 ++ expressionDeleteActions c2).
  split_and!.
  - done.
  - rewrite Hexpr. do 3 f_equal. rewrite Hset.
    rewrite (imap_entries
               (λ j p, primaryAction (attributeNameMap (nameMapper c1)) j p)).
    unfold Object_keys. rewrite imap_fmap.
    apply imap_ext. intros i [p v] Hi. simpl. unfold primaryAction.
    do 3 f_equal. apply list_fmap_ext. intros j seg Hseg.
    apply placeholder_of_agree. intros Hunsafe.
    destruct (Hrecorded p seg) as (ph & Hph & Htruthy); [| |done|].
    + apply list_elem_of_fmap. exists (p, v). split; [done|].
      by eapply list_elem_of_lookup_2.
    + by eapply list_elem_of_lookup_2.
    + exists ph. split; [done | by apply Hkeeps].
  - apply Hkeeps; [|done]. by apply Hmono.
  - intros updatePath seg Hp Hseg Hunsafe.
    destruct (Hrecorded updatePath seg Hp Hseg Hunsafe) as (ph & Hph & Htruthy).
    exists ph. split; [by apply Hkeeps | done].
Qed.

(** X8. Update paths made of safe segments are written as they are: when
    every segment of every update path is safe, the [i]-th set action of a
    compiled request is [#value.<update path> = :value<i>]. *)
Theorem safe_update_paths_written_verbatim `{E : Externals}
    (collection : Collection) (key : list (string * AttributeValue))
    (updates : Updates) (request : UpdateItemInput) :
  updateInternal_request collection key updates = Ok request →
  (∀ updatePath seg,
     updatePath ∈ Object_keys updates → seg ∈ split_dot updatePath →
     isSafeAttributeName seg = true) →
  ∃ indexSetActions deleteActions,
    UpdateExpression request
    = String_trim
        (updateExpression_of
           (imap (λ i (entry : string * JsValue),
                    "#value." +:+ entry.1 +:+ " = " +:+ ":value" +:+ pretty i)
                 updates
            ++ indexSetActions)
           deleteActions).
Proof.
  intros Hreq Hsafe.
  destruct (compilation_numbered _ _ _ _ Hreq)
    as (c1 & c2 & Hloop & _ & Hexpr & _).
  apply updatePathLoop_Ok in Hloop as (Hset & _).
  2:{ intros index updatePath Hin.
      apply list_elem_of_lookup in Hin as [i Hi].
      rewrite list_lookup_imap in Hi.
      destruct (Object_keys updates !! i) as [p|] eqn:Hp; simpl in Hi; [|done].
      injection Hi as <- <-. unfold extractUpdateKeyPaths.
      by rewrite list_lookup_fmap, Hp. }
  simpl in Hset.
  exists (expressionSetActions c2),
         (expressionDeleteActions c1 ++ expressionDeleteActions c2).
  rewrite Hexpr. do 3 f_equal. rewrite Hset.
  rewrite (imap_entries
             (λ j p, primaryAction (attributeNameMap (nameMapper c1)) j p)).
  unfold Object_keys. rewrite imap_fmap.
  apply imap_ext. intros i [p v] Hi. simpl.
  apply primaryAction_safe. intros seg Hseg. apply (Hsafe p); [|done].
  apply list_elem_of_fmap. exists (p, v). split; [done|].
  by eapply list_elem_of_lookup_2.
Qed.

(** ** Placeholders of a name session *)

Section Placeholders.
Context `{E : Externals}.

Lemma attrEntries_values start names :
  (attrEntries start names).*2
  = (λ i, "#attr" +:+ pretty i) <$> seq start (length names).
Proof.
  unfold attrEntries. revert start.
  induction names as [|n names IH]; intros start; simpl; [done|].
  rewrite Nat.add_0_r. f_equal.
  transitivity ((imap (λ i name, (name, "#attr" +:+ pretty (S start + i)))
                      names).*2); [|apply IH].
  f_equal. apply imap_ext. intros i x _. simpl. do 3 f_equal. lia.
Qed.

Lemma snd_unique {A B : Type} (l : list (A * B)) (a b : A) (p : B) :
  NoDup l.*2 → (a, p) ∈ l → (b, p) ∈ l → a = b.
Proof.
  intros Hnd [i Hi]%list_elem_of_lookup [j Hj]%list_elem_of_lookup.
  assert (i = j) as ->.
  { eapply NoDup_lookup; [exact Hnd| |]; rewrite list_lookup_fmap;
      [by rewrite Hi | by rewrite Hj]. }
  congruence.
Qed.

End Placeholders.

(** X10. The placeholders of a name session are well formed and distinct.
    After any run of calls from a new session, no name and no placeholder
    occurs twice in the table; every unsafe name that was mapped has an
    entry, which is [#value] for the name [value] and [#attr<i>], with [i]
    below the session's counter, for any other name; and two unsafe names
    that were mapped to the same placeholder are the same name. *)
Theorem name_placeholders_distinct `{E : Externals} (names : list string) :
  let session := (NameMapper_mapAll createNameMapper names).2 in
  let table := attributeNameMap session in
  NoDup table.*1
  ∧ NoDup table.*2
  ∧ (∀ name,
       name ∈ names → isSafeAttributeName name = false →
       ∃ placeholder,
         Map_get table name = Some placeholder
         ∧ ((name = "value" ∧ placeholder = "#value")
            ∨ ∃ i, i < nm_currentIndex session
                   ∧ placeholder = "#attr" +:+ pretty i))
  ∧ (∀ a b,
       a ∈ names → b ∈ names →
       isSafeAttributeName a = false → isSafeAttributeName b = false →
       placeholder_of table a = placeholder_of table b → a = b).
Proof.
  intros session table.
  pose proof (NameMapper_mapAll_session createNameMapper [] names
                session_inv_create) as Hinv.
  simpl in Hinv. fold session in Hinv.
  set (fresh := firstSeen ["value"] names) in *.
  pose proof (session_inv_keys _ _ Hinv) as Hkeys.
  destruct Hinv as (Htable & Hcount & Hnd). fold table in Htable, Hkeys.
  assert (Hvalues : NoDup table.*2).
  { rewrite Htable. simpl. rewrite attrEntries_values. apply NoDup_cons. split.
    - intros Hin. apply list_elem_of_fmap in Hin as (i & Hi & _). done.
    - apply NoDup_fmap_2_strong; [|apply NoDup_seq].
      intros i j _ _ Hij. by apply placeholder_inj in Hij. }
  assert (Hentry : ∀ name,
    name ∈ names → isSafeAttributeName name = false →
    ∃ placeholder,
      Map_get table name = Some placeholder
      ∧ ((name = "value" ∧ placeholder = "#value")
         ∨ ∃ i, i < nm_currentIndex session
                ∧ placeholder = "#attr" +:+ pretty i)).
  { intros name Hin Hunsafe.
    destruct (NameMapper_mapAll_recorded createNameMapper names name Hin Hunsafe)
      as (ph & Hph & _).
    fold session in Hph. fold table in Hph. exists ph. split; [done|].
    apply Map_get_Some_elem in Hph. rewrite Htable in Hph.
    apply elem_of_cons in Hph as [[= -> ->]|Hph]; [by left|]. right.
    apply list_elem_of_lookup in Hph as [i Hi]. unfold attrEntries in Hi.
    rewrite list_lookup_imap in Hi.
    destruct (fresh !! i) as [n|] eqn:Hn; simpl in Hi; [|done].
    injection Hi as <- <-. exists i. split; [|done].
    rewrite Hcount. by eapply lookup_lt_Some. }
  split_and!; [by rewrite Hkeys | done | done |].
  intros a b Ha Hb Hua Hub Heq.
  destruct (Hentry a Ha Hua) as (pa & Hpa & _).
  destruct (Hentry b Hb Hub) as (pb & Hpb & _).
  unfold placeholder_of in Heq. rewrite Hua, Hub, Hpa, Hpb in Heq. simpl in Heq.
  subst pb. apply Map_get_Some_elem in Hpa, Hpb.
  by eapply snd_unique.
Qed.

(** ** The further properties at the examples *)

Section FurtherWitnesses.
Import Examples.
Existing Instance SpecModel.externals.

(** The key paths of [profile.city] and [rank]. *)
Lemma extractUpdateKeyPaths_faithful_witness :
  extractUpdateKeyPaths cityOnly = [["profile"; "city"]]
  ∧ Object_keys cityOnly !! 0 = Some (join "." ["profile"; "city"])
  ∧ extractUpdateKeyPaths [(join "." ["rank"], JNull)] = [["rank"]].
Proof.
  destruct (extractUpdateKeyPaths_faithful cityOnly) as (_ & Hat & _ & _).
  destruct (extractUpdateKeyPaths_faithful []) as (_ & _ & _ & Hback).
  split_and!.
  - reflexivity.
  - destruct (Hat 0 ["profile"; "city"]) as (_ & _ & Hkey & _);
      [reflexivity | exact Hkey].
  - apply Hback; [discriminate|].
    intros seg Hseg. apply list_elem_of_singleton in Hseg. by subst.
Defined.

(** The sort key path [profile.city] under a replaced [profile], and the
    sort key path [rank] under an update of [rank]. *)
Lemma resolved_value_of_match_witness :
  resolvedValues cityAndRank [["profile"; "city"]; ["rank"]] !! 0
  = Some (JString "Oslo")
  ∧ resolvedValues cityAndRank [["profile"; "city"]; ["rank"]] !! 1
    = Some (JNumber 3).
Proof.
  split.
  - destruct (resolved_value_of_match cityAndRank
                [["profile"; "city"]; ["rank"]] 0 ["profile"; "city"]
                ["profile"]) as (p & _ & Hsplit & _ & Hdeep);
      [reflexivity | reflexivity | left |].
    rewrite Hdeep by (simpl; lia).
    assert (p = "profile") as ->.
    { rewrite <- (join_split_dot p), Hsplit. reflexivity. }
    reflexivity.
  - destruct (resolved_value_of_match cityAndRank
                [["profile"; "city"]; ["rank"]] 1 ["rank"] ["rank"])
      as (p & _ & Hsplit & Hexact & _);
      [reflexivity | reflexivity | right; left |].
    rewrite Hexact by reflexivity.
    assert (p = "rank") as ->.
    { rewrite <- (join_split_dot p), Hsplit. reflexivity. }
    reflexivity.
Defined.

(** The index [gsi1] is found, the index [gsi2] is not. *)
Lemma findCollectionIndex_first_match_witness :
  findCollectionIndex users "gsi1" = Ok gsi1
  ∧ findCollectionIndex users "gsi2" = Throw (IndexNotFoundException "gsi2").
Proof.
  destruct (findCollectionIndex_first_match users "gsi1") as [Hfound _].
  destruct (findCollectionIndex_first_match users "gsi2") as [_ Hmissing].
  split.
  - apply Hfound. exists [], []. split_and!; [reflexivity | reflexivity |].
    intros other Hother. by apply elem_of_nil in Hother.
  - apply Hmissing. split; [reflexivity|]. right. exists [gsi1].
    split; [reflexivity|]. intros other Hother.
    apply list_elem_of_singleton in Hother. by subst.
Defined.

(** An update of [nickname] against a collection with an access pattern on
    a missing index. *)
Lemma missing_index_rejected_witness :
  accessPatternStep orphans nameOnly byMissingIndex start
  = Throw (IndexNotFoundException "gsi2")
  ∧ is_Throw (updateInternal_request orphans [] nameOnly).
Proof.
  destruct (missing_index_rejected orphans nameOnly byMissingIndex)
    as [Hkeys _]; [by eexists|].
  destruct Hkeys as [Hstep Hcompile]; [by left|].
  split; [apply Hstep|].
  eapply Hcompile; [reflexivity | left].
Defined.

(** Updating [email] alone against [users]. *)
Lemma compilation_exceptions_witness :
  ∃ aps ap,
    accessPatterns users = Some aps ∧ ap ∈ aps
    ∧ InvalidUpdatesException
        "all values are required for partition access pattern with keys {email, org.id}"
      = InvalidUpdatesException
          (all_values_required KT_partition (partitionKeys ap)).
Proof.
  destruct (compilation_exceptions users [] emailOnly
              (InvalidUpdatesException
                 "all values are required for partition access pattern with keys {email, org.id}"))
    as [[Hempty _]|[(p & _ & _ & Hvalue)|(aps & ap & Haps & Hin & Hwhich)]].
  - reflexivity.
  - discriminate Hempty.
  - discriminate Hvalue.
  - exists aps, ap. split_and!; [exact Haps | exact Hin |].
    injection Haps as <-. apply list_elem_of_singleton in Hin. by subst.
Defined.

(** An update of [nickname] against [users]. *)
Lemma update_of_unindexed_fields_witness :
  ∃ request,
    updateInternal_request users [] nameOnly = Ok request
    ∧ ExpressionAttributeValues request = [(":value0", JString "neo")]
    ∧ (updateInternal echo users [] nameOnly).2 = [request].
Proof.
  destruct (update_of_unindexed_fields users [] nameOnly)
    as (request & Hreq & _ & _ & Hvalues & Hcall).
  - discriminate.
  - intros p Hp. apply list_elem_of_singleton in Hp. by subst.
  - intros ap Hap. apply list_elem_of_singleton in Hap. subst ap.
    split_and!; [by eexists | |].
    + intros keyPath Hin.
      apply elem_of_cons in Hin as [->|Hin]; [by intros [? ?]|].
      apply list_elem_of_singleton in Hin. subst. by intros [? ?].
    + intros sortKeys' keyPath Hsort. discriminate Hsort.
  - exists request. split_and!; [exact Hreq | exact Hvalues |].
    by rewrite Hcall.
Defined.

(** The request compiled for [email] and [org] has three set actions and
    three value references. *)
Lemma value_table_matches_set_actions_witness :
  ∃ c1 c2,
    expressionSetActions c1 ++ expressionSetActions c2
    = ["#value.email = :value0"; "#value.org = :value1"; "gpk1 = :value2"]
    ∧ (ExpressionAttributeValues emailAndOrgRequest).*1
      = (λ i, ":value" +:+ pretty i)
          <$> seq 0 (length (expressionSetActions c1 ++ expressionSetActions c2)).
Proof.
  destruct (value_table_matches_set_actions users [] emailAndOrg
              emailAndOrgRequest eq_refl)
    as (c1 & c2 & Hloop & Hmap & _ & _ & Hkeys & _).
  exists c1, c2. split; [|exact Hkeys].
  injection Hloop as <-. injection Hmap as <-. reflexivity.
Defined.

Lemma update_values_bound_witness :
  Map_get (ExpressionAttributeValues emailAndOrgRequest) ":value1"
  = Some (JObject [("id", JString "o1")]).
Proof.
  apply (update_values_bound users [] emailAndOrg emailAndOrgRequest eq_refl
           1 "org").
  reflexivity.
Defined.

Lemma remove_actions_only_from_sort_keys_witness :
  ∃ c1 c2,
    expressionSetActions c1 ++ expressionSetActions c2
    = ["#value.email = :value0"; "#value.org = :value1"; "gpk1 = :value2"]
    ∧ expressionDeleteActions c1 ++ expressionDeleteActions c2 = []
    ∧ UpdateExpression emailAndOrgRequest
      = String_trim
          (" SET "
           +:+ join ", " (expressionSetActions c1 ++ expressionSetActions c2)).
Proof.
  destruct (remove_actions_only_from_sort_keys users [] emailAndOrg
              emailAndOrgRequest eq_refl)
    as (c1 & c2 & Hloop & Hmap & _ & _ & Hdel1 & _ & _ & Hnosort).
  destruct Hnosort as [Hdel2 Hexpr].
  - intros ap Hap. apply list_elem_of_singleton in Hap. subst. by left.
  - exists c1, c2. split_and!; [|by rewrite Hdel1, Hdel2 | exact Hexpr].
    injection Hloop as <-. injection Hmap as <-. reflexivity.
Defined.

Lemma primary_names_in_final_table_witness :
  ∃ table,
    ExpressionAttributeNames emailAndOrgRequest = invertMap table
    ∧ Map_get table "value" = Some "#value".
Proof.
  destruct (primary_names_in_final_table users [] emailAndOrg
              emailAndOrgRequest eq_refl)
    as (table & sets & deletes & Hnames & _ & Hvalue & _).
  exists table. split; [exact Hnames | exact Hvalue].
Defined.

Lemma safe_update_paths_written_verbatim_witness :
  ∃ indexSetActions deleteActions,
    UpdateExpression emailAndOrgRequest
    = String_trim
        (updateExpression_of
           (["#value.email = :value0"; "#value.org = :value1"]
            ++ indexSetActions)
           deleteActions).
Proof.
  destruct (safe_update_paths_written_verbatim users [] emailAndOrg
              emailAndOrgRequest eq_refl)
    as (sets & deletes & Hexpr).
  - intros p seg Hp Hseg.
    apply elem_of_cons in Hp as [->|Hp].
    + apply list_elem_of_singleton in Hseg. by subst.
    + apply list_elem_of_singleton in Hp. subst p.
      apply list_elem_of_singleton in Hseg. by subst.
  - exists sets, deletes. exact Hexpr.
Defined.

(** The names [count] and [name] get different placeholders. *)
Lemma name_placeholders_distinct_witness :
  placeholder_of
    (attributeNameMap (NameMapper_mapAll createNameMapper ["count"; "name"]).2)
    "count"
  ≠ placeholder_of
      (attributeNameMap (NameMapper_mapAll createNameMapper ["count"; "name"]).2)
      "name".
Proof.
  destruct (name_placeholders_distinct ["count"; "name"])
    as (_ & _ & _ & Hinj).
  intros Heq.
  assert (Hsame : "count" = "name");
    [|discriminate Hsame].
  apply Hinj; [left | right; left | reflexivity | reflexivity | exact Heq].
Defined.

End FurtherWitnesses.

(** * Partition keys, all or nothing *)

Section Completion.
Context `{E : Externals}.





End Completion.

Section PartitionAction.
Context `{E : Externals}.


End PartitionAction.


Section PartitionKeyExamples.
Import Examples.
Existing Instance SpecModel.externals.



End PartitionKeyExamples.
